(** * The request broker of the wallet's background service

    A shallow embedding of [State] (background/handlers/State.ts) and of the
    resolution commands of [Extension] (background/handlers/Extension.ts):
    the four pending-request tables, the authorization store with its
    durable copy, the notification surface, and the sign / DID-sign
    approval paths.  A JavaScript exception keeps every mutation made
    before it, so commands are computations in a state monad whose result
    is either a value or the thrown error. *)

From stdpp Require Import gmap strings list fin_maps pretty.

Local Open Scope string_scope.

(** ** JavaScript objects used as insertion-ordered records

    [Record<string, T>] tables whose iteration order is observable
    ([Object.values], [Object.entries]) are kept as association lists in
    insertion order.  [set] overwrites in place or appends, [delete]
    drops the key. *)
Abbreviation JsObject A := (list (string * A)).

Module Obj.

Fixpoint get {A} (k : string) (o : JsObject A) : option A :=
  match o with
  | [] => None
  | (k', v) :: o' => if decide (k = k') then Some v else get k o'
  end.

Fixpoint set {A} (k : string) (v : A) (o : JsObject A) : JsObject A :=
  match o with
  | [] => [(k, v)]
  | (k', v') :: o' =>
      if decide (k = k') then (k, v) :: o' else (k', v') :: set k v o'
  end.

Definition delete {A} (k : string) (o : JsObject A) : JsObject A :=
  filter (λ kv, kv.1 ≠ k) o.

Definition keys {A} (o : JsObject A) : list string := o.*1.
Definition values {A} (o : JsObject A) : list A := o.*2.
Definition entries {A} (o : JsObject A) : list (string * A) := o.

End Obj.


(** ** Errors

    Every failure in the source is a thrown or rejected [Error]; the
    constructors are named after the source's messages. *)
Inductive error : Type :=
  | InvalidUrl (url : string)            (* Invalid url ..., expected to start with http: ... *)
  | PendingAuthorization (url : string)  (* The source ... has a pending authorization request *)
  | NotAllowed (url : string)            (* The source ... is not allowed to interact with this extension *)
  | SourceNotKnown (url : string)        (* The source ... is not known *)
  | UnableToFindRequest                  (* Unable to find request *)
  | UnableToFindDidSigningRequest        (* Unable to find DID signing request *)
  | UnableToFindPair                     (* Unable to find pair *)
  | PasswordNeeded                       (* Password needed to unlock the account *)
  | UnableToDecode                       (* thrown by the keyring's decodePkcs8 *)
  | InvalidAddress (address : string)    (* thrown by the keyring's decodeAddress *)
  | WrongDidPassword                     (* Wrong DID password *)
  | DidNotFoundError                     (* DID not found *)
  | CancelledError                       (* Cancelled *)
  | RejectedError                        (* Rejected *)
  | TypeError                            (* property access on undefined *)
  | OtherError (message : string).

(** The failure classes of the specification's error taxonomy, and the
    class each source error falls in. *)
Inductive failure : Type :=
  | NotFound | DuplicateRequest | InvalidURL | WrongPassword
  | DidNotFound | Cancelled.

Definition classify (e : error) : option failure :=
  match e with
  | UnableToFindRequest | UnableToFindDidSigningRequest
  | SourceNotKnown _ => Some NotFound
  | PendingAuthorization _ => Some DuplicateRequest
  | InvalidUrl _ => Some InvalidURL
  | UnableToDecode | WrongDidPassword => Some WrongPassword
  | DidNotFoundError => Some DidNotFound
  | CancelledError => Some Cancelled
  | _ => None
  end.

Inductive result (A : Type) : Type :=
  | Ok (a : A)
  | Throw (e : error).
Arguments Ok {A} a.
Arguments Throw {A} e.

(** ** Data model *)

(** [AuthUrlInfo]: one entry of the authorization store.  An entry
    stored by a version before 0.44.1 has [isAllowed] and no
    [authorizedAccounts]. *)
Record AuthUrlInfo : Type := {
  ai_authorizedAccounts : option (list string);
  ai_authorizedDids : option (list string);
  ai_count : nat;
  ai_id : option string;
  ai_isAllowed : option bool;
  ai_origin : string;
  ai_url : string
}.

Record AuthResponse : Type := {
  result_ : bool;
  authorizedAccounts : list string;
  authorizedDids : list string
}.

(** A pending authorize request.  [idStr] is what [stripUrl] returned,
    which is [undefined] ([None]) for a url without a third
    slash-separated part. *)
Record AuthRequest : Type := {
  ar_id : string;
  ar_idStr : option string;
  ar_request : string;           (* RequestAuthorizeTab: { origin } *)
  ar_url : string
}.

(** [AuthorizeRequest]: the public view of a pending authorize request. *)
Record AuthorizeRequest : Type := {
  aq_id : string;
  aq_request : string;
  aq_url : string
}.

Record MetadataDef : Type := {
  genesisHash : string;
  chain : string;
  specVersion : nat
}.

Record MetaRequest : Type := {
  mr_id : string;
  mr_request : MetadataDef;
  mr_url : string
}.

(** [SignerPayloadJSON | SignerPayloadRaw]: the signing address, the
    bytes to sign, and the genesis hash a JSON payload carries. *)
Record SignerPayload : Type := {
  payload_address : string;
  payload_data : string;
  payload_genesisHash : option string
}.

Record SignRequest : Type := {
  sr_account : string;           (* AccountJson: the address *)
  sr_id : string;
  sr_request : SignerPayload;
  sr_url : string
}.

Record DidSignRequest : Type := {
  dr_did : string;
  dr_id : string;
  dr_name : option string;
  dr_request : SignerPayload;
  dr_url : string
}.

Record ResponseSigning : Type := {
  rs_id : string;
  rs_signature : string
}.

(** What the promise handed to the original caller was settled with. *)
Inductive value : Type :=
  | VAuth (r : AuthResponse)
  | VBool (b : bool)
  | VSigning (r : ResponseSigning)
  | VDidSign (r : ResponseSigning).

Inductive settlement : Type :=
  | Fulfilled (v : value)
  | Rejected (e : error).

(** A pair of the keyring and an encrypted DID key: locked or not, and
    the passphrase [decodePkcs8] accepts. *)
Record KeyringPair : Type := {
  pair_address : string;
  pair_isLocked : bool;
  pair_passphrase : string
}.

Record DidJson : Type := {
  did_address : string;
  did_passphrase : string
}.

#[global] Instance AuthUrlInfo_eq_dec : EqDecision AuthUrlInfo.
Proof. solve_decision. Defined.
#[global] Instance AuthRequest_eq_dec : EqDecision AuthRequest.
Proof. solve_decision. Defined.

(** ** The state

    The private fields of [State], the unlock cache of [Extension], and
    the parts of the environment the broker writes to: durable storage,
    the metadata and DID stores, the keyring, the badge, the
    notification windows, and the objects the authorization store
    inherits property names from. *)
Record State : Type := {
  authUrls : gmap string AuthUrlInfo;                     (* #authUrls *)
  authRequests : JsObject AuthRequest;                    (* #authRequests *)
  metaRequests : JsObject MetaRequest;                    (* #metaRequests *)
  signRequests : JsObject SignRequest;                    (* #signRequests *)
  didSignRequests : JsObject DidSignRequest;              (* #didSignRequests *)
  notification : string;                                  (* #notification *)
  windows : list nat;                                     (* #windows *)
  defaultAuthAccountSelection : list string;              (* defaultAuthAccountSelection *)
  authSubject : list AuthorizeRequest;                    (* authSubject *)
  metaSubject : list MetaRequest;                         (* metaSubject *)
  signSubject : list SignRequest;                         (* signSubject *)
  didSignSubject : list DidSignRequest;                   (* didSignSubject *)
  cachedUnlocks : gmap string Z;                          (* Extension.#cachedUnlocks *)
  counter : nat;                                          (* the counter behind getId *)
  settled : list (string * settlement);                   (* calls of the callers' resolve / reject, oldest first *)
  storedAuthUrls : option (gmap string AuthUrlInfo);      (* durable value under the key authUrls *)
  storedDefaultAuthAccounts : option (list string);       (* durable value under the key defaultAuthAccounts *)
  metaStore : JsObject MetadataDef;                       (* content of the MetadataStore *)
  definitions : gmap string MetadataDef;                  (* runtime metadata registry (addMetadata) *)
  didsStore : gmap string DidJson;                        (* content of the DidsStore *)
  pairs : gmap string KeyringPair;                        (* pairs of the keyring *)
  badgeText : string;                                     (* text of the action badge *)
  chromeWindows : list nat;                               (* windows open in the browser *)
  nextWindowId : nat;                                     (* id the browser gives the next window *)
  (* authorizedAccounts / authorizedDids written on Object.prototype and on its functions *)
  inheritedProps : gmap string (list string * option (list string))
}.

(** Field updates ([this.x = v]). *)
Definition set_authUrls (v : gmap string AuthUrlInfo) (s : State) : State :=
  Build_State v (authRequests s) (metaRequests s) (signRequests s)
    (didSignRequests s) (notification s) (windows s)
    (defaultAuthAccountSelection s) (authSubject s) (metaSubject s)
    (signSubject s) (didSignSubject s) (cachedUnlocks s) (counter s)
    (settled s) (storedAuthUrls s) (storedDefaultAuthAccounts s)
    (metaStore s) (definitions s) (didsStore s) (pairs s) (badgeText s)
    (chromeWindows s) (nextWindowId s) (inheritedProps s).
Definition set_authRequests (v : JsObject AuthRequest) (s : State) : State :=
  Build_State (authUrls s) v (metaRequests s) (signRequests s)
    (didSignRequests s) (notification s) (windows s)
    (defaultAuthAccountSelection s) (authSubject s) (metaSubject s)
    (signSubject s) (didSignSubject s) (cachedUnlocks s) (counter s)
    (settled s) (storedAuthUrls s) (storedDefaultAuthAccounts s)
    (metaStore s) (definitions s) (didsStore s) (pairs s) (badgeText s)
    (chromeWindows s) (nextWindowId s) (inheritedProps s).
Definition set_metaRequests (v : JsObject MetaRequest) (s : State) : State :=
  Build_State (authUrls s) (authRequests s) v (signRequests s)
    (didSignRequests s) (notification s) (windows s)
    (defaultAuthAccountSelection s) (authSubject s) (metaSubject s)
    (signSubject s) (didSignSubject s) (cachedUnlocks s) (counter s)
    (settled s) (storedAuthUrls s) (storedDefaultAuthAccounts s)
    (metaStore s) (definitions s) (didsStore s) (pairs s) (badgeText s)
    (chromeWindows s) (nextWindowId s) (inheritedProps s).
Definition set_signRequests (v : JsObject SignRequest) (s : State) : State :=
  Build_State (authUrls s) (authRequests s) (metaRequests s) v
    (didSignRequests s) (notification s) (windows s)
    (defaultAuthAccountSelection s) (authSubject s) (metaSubject s)
    (signSubject s) (didSignSubject s) (cachedUnlocks s) (counter s)
    (settled s) (storedAuthUrls s) (storedDefaultAuthAccounts s)
    (metaStore s) (definitions s) (didsStore s) (pairs s) (badgeText s)
    (chromeWindows s) (nextWindowId s) (inheritedProps s).
Definition set_didSignRequests (v : JsObject DidSignRequest)
    (s : State) : State :=
  Build_State (authUrls s) (authRequests s) (metaRequests s)
    (signRequests s) v (notification s) (windows s)
    (defaultAuthAccountSelection s) (authSubject s) (metaSubject s)
    (signSubject s) (didSignSubject s) (cachedUnlocks s) (counter s)
    (settled s) (storedAuthUrls s) (storedDefaultAuthAccounts s)
    (metaStore s) (definitions s) (didsStore s) (pairs s) (badgeText s)
    (chromeWindows s) (nextWindowId s) (inheritedProps s).
Definition set_notification (v : string) (s : State) : State :=
  Build_State (authUrls s) (authRequests s) (metaRequests s)
    (signRequests s) (didSignRequests s) v (windows s)
    (defaultAuthAccountSelection s) (authSubject s) (metaSubject s)
    (signSubject s) (didSignSubject s) (cachedUnlocks s) (counter s)
    (settled s) (storedAuthUrls s) (storedDefaultAuthAccounts s)
    (metaStore s) (definitions s) (didsStore s) (pairs s) (badgeText s)
    (chromeWindows s) (nextWindowId s) (inheritedProps s).
Definition set_windows (v : list nat) (s : State) : State :=
  Build_State (authUrls s) (authRequests s) (metaRequests s)
    (signRequests s) (didSignRequests s) (notification s) v
    (defaultAuthAccountSelection s) (authSubject s) (metaSubject s)
    (signSubject s) (didSignSubject s) (cachedUnlocks s) (counter s)
    (settled s) (storedAuthUrls s) (storedDefaultAuthAccounts s)
    (metaStore s) (definitions s) (didsStore s) (pairs s) (badgeText s)
    (chromeWindows s) (nextWindowId s) (inheritedProps s).
Definition set_defaultAuthAccountSelection (v : list string)
    (s : State) : State :=
  Build_State (authUrls s) (authRequests s) (metaRequests s)
    (signRequests s) (didSignRequests s) (notification s) (windows s) v
    (authSubject s) (metaSubject s) (signSubject s) (didSignSubject s)
    (cachedUnlocks s) (counter s) (settled s) (storedAuthUrls s)
    (storedDefaultAuthAccounts s) (metaStore s) (definitions s)
    (didsStore s) (pairs s) (badgeText s) (chromeWindows s) (nextWindowId s)
    (inheritedProps s).
Definition set_authSubject (v : list AuthorizeRequest) (s : State) : State :=
  Build_State (authUrls s) (authRequests s) (metaRequests s)
    (signRequests s) (didSignRequests s) (notification s) (windows s)
    (defaultAuthAccountSelection s) v (metaSubject s) (signSubject s)
    (didSignSubject s) (cachedUnlocks s) (counter s) (settled s)
    (storedAuthUrls s) (storedDefaultAuthAccounts s) (metaStore s)
    (definitions s) (didsStore s) (pairs s) (badgeText s) (chromeWindows s)
    (nextWindowId s) (inheritedProps s).
Definition set_metaSubject (v : list MetaRequest) (s : State) : State :=
  Build_State (authUrls s) (authRequests s) (metaRequests s)
    (signRequests s) (didSignRequests s) (notification s) (windows s)
    (defaultAuthAccountSelection s) (authSubject s) v (signSubject s)
    (didSignSubject s) (cachedUnlocks s) (counter s) (settled s)
    (storedAuthUrls s) (storedDefaultAuthAccounts s) (metaStore s)
    (definitions s) (didsStore s) (pairs s) (badgeText s) (chromeWindows s)
    (nextWindowId s) (inheritedProps s).
Definition set_signSubject (v : list SignRequest) (s : State) : State :=
  Build_State (authUrls s) (authRequests s) (metaRequests s)
    (signRequests s) (didSignRequests s) (notification s) (windows s)
    (defaultAuthAccountSelection s) (authSubject s) (metaSubject s) v
    (didSignSubject s) (cachedUnlocks s) (counter s) (settled s)
    (storedAuthUrls s) (storedDefaultAuthAccounts s) (metaStore s)
    (definitions s) (didsStore s) (pairs s) (badgeText s) (chromeWindows s)
    (nextWindowId s) (inheritedProps s).
Definition set_didSignSubject (v : list DidSignRequest) (s : State) : State :=
  Build_State (authUrls s) (authRequests s) (metaRequests s)
    (signRequests s) (didSignRequests s) (notification s) (windows s)
    (defaultAuthAccountSelection s) (authSubject s) (metaSubject s)
    (signSubject s) v (cachedUnlocks s) (counter s) (settled s)
    (storedAuthUrls s) (storedDefaultAuthAccounts s) (metaStore s)
    (definitions s) (didsStore s) (pairs s) (badgeText s) (chromeWindows s)
    (nextWindowId s) (inheritedProps s).
Definition set_cachedUnlocks (v : gmap string Z) (s : State) : State :=
  Build_State (authUrls s) (authRequests s) (metaRequests s)
    (signRequests s) (didSignRequests s) (notification s) (windows s)
    (defaultAuthAccountSelection s) (authSubject s) (metaSubject s)
    (signSubject s) (didSignSubject s) v (counter s) (settled s)
    (storedAuthUrls s) (storedDefaultAuthAccounts s) (metaStore s)
    (definitions s) (didsStore s) (pairs s) (badgeText s) (chromeWindows s)
    (nextWindowId s) (inheritedProps s).
Definition set_counter (v : nat) (s : State) : State :=
  Build_State (authUrls s) (authRequests s) (metaRequests s)
    (signRequests s) (didSignRequests s) (notification s) (windows s)
    (defaultAuthAccountSelection s) (authSubject s) (metaSubject s)
    (signSubject s) (didSignSubject s) (cachedUnlocks s) v (settled s)
    (storedAuthUrls s) (storedDefaultAuthAccounts s) (metaStore s)
    (definitions s) (didsStore s) (pairs s) (badgeText s) (chromeWindows s)
    (nextWindowId s) (inheritedProps s).
Definition set_settled (v : list (string * settlement)) (s : State) : State :=
  Build_State (authUrls s) (authRequests s) (metaRequests s)
    (signRequests s) (didSignRequests s) (notification s) (windows s)
    (defaultAuthAccountSelection s) (authSubject s) (metaSubject s)
    (signSubject s) (didSignSubject s) (cachedUnlocks s) (counter s) v
    (storedAuthUrls s) (storedDefaultAuthAccounts s) (metaStore s)
    (definitions s) (didsStore s) (pairs s) (badgeText s) (chromeWindows s)
    (nextWindowId s) (inheritedProps s).
Definition set_storedAuthUrls (v : option (gmap string AuthUrlInfo))
    (s : State) : State :=
  Build_State (authUrls s) (authRequests s) (metaRequests s)
    (signRequests s) (didSignRequests s) (notification s) (windows s)
    (defaultAuthAccountSelection s) (authSubject s) (metaSubject s)
    (signSubject s) (didSignSubject s) (cachedUnlocks s) (counter s)
    (settled s) v (storedDefaultAuthAccounts s) (metaStore s)
    (definitions s) (didsStore s) (pairs s) (badgeText s) (chromeWindows s)
    (nextWindowId s) (inheritedProps s).
Definition set_storedDefaultAuthAccounts (v : option (list string))
    (s : State) : State :=
  Build_State (authUrls s) (authRequests s) (metaRequests s)
    (signRequests s) (didSignRequests s) (notification s) (windows s)
    (defaultAuthAccountSelection s) (authSubject s) (metaSubject s)
    (signSubject s) (didSignSubject s) (cachedUnlocks s) (counter s)
    (settled s) (storedAuthUrls s) v (metaStore s) (definitions s)
    (didsStore s) (pairs s) (badgeText s) (chromeWindows s) (nextWindowId s)
    (inheritedProps s).
Definition set_metaStore (v : JsObject MetadataDef) (s : State) : State :=
  Build_State (authUrls s) (authRequests s) (metaRequests s)
    (signRequests s) (didSignRequests s) (notification s) (windows s)
    (defaultAuthAccountSelection s) (authSubject s) (metaSubject s)
    (signSubject s) (didSignSubject s) (cachedUnlocks s) (counter s)
    (settled s) (storedAuthUrls s) (storedDefaultAuthAccounts s) v
    (definitions s) (didsStore s) (pairs s) (badgeText s) (chromeWindows s)
    (nextWindowId s) (inheritedProps s).
Definition set_definitions (v : gmap string MetadataDef) (s : State) : State :=
  Build_State (authUrls s) (authRequests s) (metaRequests s)
    (signRequests s) (didSignRequests s) (notification s) (windows s)
    (defaultAuthAccountSelection s) (authSubject s) (metaSubject s)
    (signSubject s) (didSignSubject s) (cachedUnlocks s) (counter s)
    (settled s) (storedAuthUrls s) (storedDefaultAuthAccounts s)
    (metaStore s) v (didsStore s) (pairs s) (badgeText s) (chromeWindows s)
    (nextWindowId s) (inheritedProps s).
Definition set_didsStore (v : gmap string DidJson) (s : State) : State :=
  Build_State (authUrls s) (authRequests s) (metaRequests s)
    (signRequests s) (didSignRequests s) (notification s) (windows s)
    (defaultAuthAccountSelection s) (authSubject s) (metaSubject s)
    (signSubject s) (didSignSubject s) (cachedUnlocks s) (counter s)
    (settled s) (storedAuthUrls s) (storedDefaultAuthAccounts s)
    (metaStore s) (definitions s) v (pairs s) (badgeText s)
    (chromeWindows s) (nextWindowId s) (inheritedProps s).
Definition set_pairs (v : gmap string KeyringPair) (s : State) : State :=
  Build_State (authUrls s) (authRequests s) (metaRequests s)
    (signRequests s) (didSignRequests s) (notification s) (windows s)
    (defaultAuthAccountSelection s) (authSubject s) (metaSubject s)
    (signSubject s) (didSignSubject s) (cachedUnlocks s) (counter s)
    (settled s) (storedAuthUrls s) (storedDefaultAuthAccounts s)
    (metaStore s) (definitions s) (didsStore s) v (badgeText s)
    (chromeWindows s) (nextWindowId s) (inheritedProps s).
Definition set_badgeText (v : string) (s : State) : State :=
  Build_State (authUrls s) (authRequests s) (metaRequests s)
    (signRequests s) (didSignRequests s) (notification s) (windows s)
    (defaultAuthAccountSelection s) (authSubject s) (metaSubject s)
    (signSubject s) (didSignSubject s) (cachedUnlocks s) (counter s)
    (settled s) (storedAuthUrls s) (storedDefaultAuthAccounts s)
    (metaStore s) (definitions s) (didsStore s) (pairs s) v
    (chromeWindows s) (nextWindowId s) (inheritedProps s).
Definition set_chromeWindows (v : list nat) (s : State) : State :=
  Build_State (authUrls s) (authRequests s) (metaRequests s)
    (signRequests s) (didSignRequests s) (notification s) (windows s)
    (defaultAuthAccountSelection s) (authSubject s) (metaSubject s)
    (signSubject s) (didSignSubject s) (cachedUnlocks s) (counter s)
    (settled s) (storedAuthUrls s) (storedDefaultAuthAccounts s)
    (metaStore s) (definitions s) (didsStore s) (pairs s) (badgeText s) v
    (nextWindowId s) (inheritedProps s).
Definition set_nextWindowId (v : nat) (s : State) : State :=
  Build_State (authUrls s) (authRequests s) (metaRequests s)
    (signRequests s) (didSignRequests s) (notification s) (windows s)
    (defaultAuthAccountSelection s) (authSubject s) (metaSubject s)
    (signSubject s) (didSignSubject s) (cachedUnlocks s) (counter s)
    (settled s) (storedAuthUrls s) (storedDefaultAuthAccounts s)
    (metaStore s) (definitions s) (didsStore s) (pairs s) (badgeText s)
    (chromeWindows s) v (inheritedProps s).
Definition set_inheritedProps (v : gmap string (list string * option (list string)))
    (s : State) : State :=
  Build_State (authUrls s) (authRequests s) (metaRequests s)
    (signRequests s) (didSignRequests s) (notification s) (windows s)
    (defaultAuthAccountSelection s) (authSubject s) (metaSubject s)
    (signSubject s) (didSignSubject s) (cachedUnlocks s) (counter s)
    (settled s) (storedAuthUrls s) (storedDefaultAuthAccounts s)
    (metaStore s) (definitions s) (didsStore s) (pairs s) (badgeText s)
    (chromeWindows s) (nextWindowId s) v.

(** ** Commands as state-passing computations

    A command runs on the state and ends with a value or with a thrown
    error; in both cases the state it leaves is the state after the last
    mutation it made. *)
Definition M (A : Type) : Type := State → result A * State.

#[global] Instance M_ret : MRet M := λ A a s, (Ok a, s).
#[global] Instance M_bind : MBind M := λ A B f m s,
  match m s with
  | (Ok a, s') => f a s'
  | (Throw e, s') => (Throw e, s')
  end.

#[global] Instance M_fmap : FMap M := λ A B f m, a ← m; mret (f a).

Definition throw {A} (e : error) : M A := λ s, (Throw e, s).
Definition gets {A} (f : State → A) : M A := λ s, (Ok (f s), s).
Definition modify (f : State → State) : M unit := λ s, (Ok tt, f s).
Definition lift {A} (r : result A) : M A := λ s, (r, s).
Definition assert (cond : bool) (e : error) : M unit :=
  if cond then mret tt else throw e.
Definition when (cond : bool) (m : M unit) : M unit :=
  if cond then m else mret tt.

(** [forEach]: run the callback on each element in order; an exception
    ends the loop. *)
Fixpoint forEach {A} (f : A → M unit) (l : list A) : M unit :=
  match l with
  | [] => mret tt
  | x :: l' => f x ;; forEach f l'
  end.

(** ** State.ts *)

(** [String.prototype.split] on a one-character separator. *)
Fixpoint split (sep : Ascii.ascii) (s : string) : list string :=
  match s with
  | EmptyString => [EmptyString]
  | String a s' =>
      if decide (a = sep) then EmptyString :: split sep s'
      else match split sep s' with
           | [] => [String a EmptyString]
           | p :: ps => String a p :: ps
           end
  end.

Definition slash : Ascii.ascii := Ascii.ascii_of_nat 47.

Definition allowedScheme (url : string) : bool :=
  String.prefix "http:" url || String.prefix "https:" url
  || String.prefix "ipfs:" url || String.prefix "ipns:" url.

(** [stripUrl]: the third slash-separated part of an allowed url, which
    is [undefined] when the url has fewer than three parts. *)
Definition stripUrl (url : string) : result (option string) :=
  if allowedScheme url then Ok (split slash url !! 2%nat) else Throw (InvalidUrl url).

(** The property key a value indexes an object with: [undefined] is
    converted to the string of that name. *)
Definition propKey (k : option string) : string := default "undefined" k.

(** ** Property lookup on the authorization store

    [#authUrls] is a plain object, so [this.#authUrls[key]] finds the
    entry stored under the key and otherwise what the object inherits
    from [Object.prototype]: the prototype itself under [__proto__], one
    of its functions under the name of the function, and a list the
    broker has written on the prototype under the name it was written
    with.  [inheritedProps] records, under [__proto__] and under the
    names of the functions, the [authorizedAccounts] and the
    [authorizedDids] written on these objects. *)
Definition objectPrototypeNames : list string :=
  ["constructor"; "__defineGetter__"; "__defineSetter__"; "hasOwnProperty";
   "__lookupGetter__"; "__lookupSetter__"; "isPrototypeOf";
   "propertyIsEnumerable"; "toString"; "valueOf"; "__proto__";
   "toLocaleString"].

Inductive property : Type :=
  | Entry (info : AuthUrlInfo)   (* an entry of the store *)
  | Builtin (name : string)      (* Object.prototype or one of its functions *)
  | WrittenList                  (* a list written on Object.prototype *)
  | Undefined.

(** What has been written on [Object.prototype], which every object
    inherits. *)
Definition onPrototype (s : State) : option (list string * option (list string)) :=
  inheritedProps s !! "__proto__".

Definition lookupAuthUrl (key : string) (s : State) : property :=
  match authUrls s !! key with
  | Some info => Entry info
  | None =>
      if bool_decide (key ∈ objectPrototypeNames) then Builtin key
      else
        match onPrototype s with
        | Some (_, dids) =>
            if bool_decide (key = "authorizedAccounts")
               || bool_decide (key = "authorizedDids") && bool_decide (is_Some dids)
            then WrittenList
            else Undefined
        | None => Undefined
        end
  end.

(** Every value but [undefined] is an object, which is truthy. *)
Definition defined (v : property) : bool :=
  match v with
  | Undefined => false
  | _ => true
  end.

(** [info.authorizedAccounts] of an entry: its own list, or the list it
    inherits from [Object.prototype]. *)
Definition entryAccounts (info : AuthUrlInfo) (s : State) : option (list string) :=
  match ai_authorizedAccounts info with
  | Some accounts => Some accounts
  | None => fst <$> onPrototype s
  end.

(** Whether [v.authorizedAccounts] is truthy: a list is, whatever its
    length.  A written list inherits the property it is itself. *)
Definition hasAccounts (v : property) (s : State) : bool :=
  match v with
  | Entry info => bool_decide (is_Some (entryAccounts info s))
  | Builtin name =>
      bool_decide (is_Some (inheritedProps s !! name))
      || bool_decide (is_Some (onPrototype s))
  | WrittenList => true
  | Undefined => false
  end.

(** Whether [v.isAllowed] is truthy: the broker never writes it, so
    only an entry has it. *)
Definition isAllowed (v : property) : bool :=
  match v with
  | Entry info => default false (ai_isAllowed info)
  | _ => false
  end.

(** Modelled from the spec: utils/getId.js is not part of the sources;
    ids are process-wide unique and monotonically assigned, here the
    decimal of an increasing counter behind a fixed prefix. *)
Definition getId : M string := λ s,
  let c := S (counter s) in (Ok ("request." +:+ pretty c), set_counter c s).

Definition numAuthRequests (s : State) : nat := length (Obj.keys (authRequests s)).
Definition numMetaRequests (s : State) : nat := length (Obj.keys (metaRequests s)).
Definition numSignRequests (s : State) : nat := length (Obj.keys (signRequests s)).
Definition numDidSignRequests (s : State) : nat := length (Obj.keys (didSignRequests s)).

Definition allAuthRequests (s : State) : list AuthorizeRequest :=
  (λ r, {| aq_id := ar_id r; aq_request := ar_request r; aq_url := ar_url r |})
    <$> Obj.values (authRequests s).
Definition allMetaRequests (s : State) : list MetaRequest := Obj.values (metaRequests s).
Definition allSignRequests (s : State) : list SignRequest := Obj.values (signRequests s).
Definition allDidSignRequests (s : State) : list DidSignRequest :=
  Obj.values (didSignRequests s).

Definition popupClose : M unit :=
  modify (λ s, set_windows []
            (set_chromeWindows
               (filter (λ w, w ∉ windows s) (chromeWindows s)) s)).

Definition popupOpen : M unit :=
  n ← gets notification;
  when (bool_decide (n ≠ "extension"))
    (modify (λ s,
       let w := nextWindowId s in
       set_windows (windows s ++ [w])
         (set_chromeWindows (chromeWindows s ++ [w])
            (set_nextWindowId (S w) s)))).

Definition saveCurrentAuthList : M unit :=
  modify (λ s, set_storedAuthUrls (Some (authUrls s)) s).

Definition saveDefaultAuthAccounts : M unit :=
  modify (λ s, set_storedDefaultAuthAccounts (Some (defaultAuthAccountSelection s)) s).

Definition updateDefaultAuthAccounts (newList : list string) : M unit :=
  modify (set_defaultAuthAccountSelection newList) ;;
  saveDefaultAuthAccounts.

Definition badge (s : State) : string :=
  let authCount := numAuthRequests s in
  let metaCount := numMetaRequests s in
  let signCount := (numSignRequests s + numDidSignRequests s)%nat in
  if bool_decide (authCount ≠ 0%nat) then "Auth"
  else if bool_decide (metaCount ≠ 0%nat) then "Meta"
  else if bool_decide (signCount ≠ 0%nat) then pretty signCount
  else "".

Definition updateIcon (shouldClose : bool) : M unit :=
  text ← gets badge;
  modify (set_badgeText text) ;;
  when (shouldClose && bool_decide (text = "")) popupClose.

Definition updateIconAuth (shouldClose : bool) : M unit :=
  modify (λ s, set_authSubject (allAuthRequests s) s) ;; updateIcon shouldClose.
Definition updateIconMeta (shouldClose : bool) : M unit :=
  modify (λ s, set_metaSubject (allMetaRequests s) s) ;; updateIcon shouldClose.
Definition updateIconSign (shouldClose : bool) : M unit :=
  modify (λ s, set_signSubject (allSignRequests s) s) ;; updateIcon shouldClose.
Definition updateIconDidSign (shouldClose : bool) : M unit :=
  modify (λ s, set_didSignSubject (allDidSignRequests s) s) ;; updateIcon shouldClose.

(** The [resolve] / [reject] the original caller's promise came with:
    the call is recorded under the request's id. *)
Definition settle (id : string) (o : settlement) : M unit :=
  modify (λ s, set_settled (settled s ++ [(id, o)]) s).

(** [authComplete]: the shared [complete] step of an authorize request,
    then the two continuations stored with the request.  The origin of a
    pending request is never a name of [objectPrototypeNames]
    ([authorizeUrl] enqueues nothing for those), so the assignment makes
    or overwrites an entry of the store. *)
Definition authCompleteStep (id : string) (accounts dids : list string) : M unit :=
  o ← gets (λ s, Obj.get id (authRequests s));
  match o with
  | None => throw TypeError
  | Some r =>
      key ← lift (stripUrl (ar_url r));
      modify (λ s, set_authUrls
                (<[propKey key :=
                     {| ai_authorizedAccounts := Some accounts;
                        ai_authorizedDids := Some dids;
                        ai_count := 0;
                        ai_id := ar_idStr r;
                        ai_isAllowed := None;
                        ai_origin := ar_request r;
                        ai_url := ar_url r |}]> (authUrls s)) s) ;;
      saveCurrentAuthList ;;
      updateDefaultAuthAccounts accounts ;;
      modify (λ s, set_authRequests (Obj.delete id (authRequests s)) s) ;;
      updateIconAuth true
  end.

Definition authReject (id : string) (e : error) : M unit :=
  authCompleteStep id [] [] ;;
  settle id (Rejected e).

Definition authResolve (id : string) (r : AuthResponse) : M unit :=
  authCompleteStep id (authorizedAccounts r) (authorizedDids r) ;;
  settle id (Fulfilled (VAuth r)).

Definition deleteAuthRequest (requestId : string) : M unit :=
  modify (λ s, set_authRequests (Obj.delete requestId (authRequests s)) s) ;;
  updateIconAuth true.

(** [metaComplete], [signComplete], [didSignComplete]. *)
Definition metaCompleteStep (id : string) : M unit :=
  modify (λ s, set_metaRequests (Obj.delete id (metaRequests s)) s) ;;
  updateIconMeta true.
Definition metaReject (id : string) (e : error) : M unit :=
  metaCompleteStep id ;; settle id (Rejected e).
Definition metaResolve (id : string) (b : bool) : M unit :=
  metaCompleteStep id ;; settle id (Fulfilled (VBool b)).

Definition signCompleteStep (id : string) : M unit :=
  modify (λ s, set_signRequests (Obj.delete id (signRequests s)) s) ;;
  updateIconSign true.
Definition signReject (id : string) (e : error) : M unit :=
  signCompleteStep id ;; settle id (Rejected e).
Definition signResolve (id : string) (r : ResponseSigning) : M unit :=
  signCompleteStep id ;; settle id (Fulfilled (VSigning r)).

Definition didSignCompleteStep (id : string) : M unit :=
  modify (λ s, set_didSignRequests (Obj.delete id (didSignRequests s)) s) ;;
  updateIconDidSign true.
Definition didSignReject (id : string) (e : error) : M unit :=
  didSignCompleteStep id ;; settle id (Rejected e).
Definition didSignResolve (id : string) (r : ResponseSigning) : M unit :=
  didSignCompleteStep id ;; settle id (Fulfilled (VDidSign r)).

Definition removeAuthorization (url : string) : M (gmap string AuthUrlInfo) :=
  entry ← gets (lookupAuthUrl url);
  assert (defined entry) (SourceNotKnown url) ;;
  modify (λ s, set_authUrls (delete url (authUrls s)) s) ;;
  saveCurrentAuthList ;;
  gets authUrls.

(** [AuthorizedAccountsDiff]: url, new account list, optional DID list. *)
Definition AuthorizedAccountsDiff : Type :=
  list (string * list string * option (list string)).

(** The two assignments of the loop body: on an entry of the store, on
    [Object.prototype] or one of its functions, or on a written list,
    where they leave what is read of the list as it is; on [undefined]
    the first assignment throws. *)
Definition updateAuthorizedEntry
    (d : string * list string * option (list string)) : M unit :=
  let '(url, accounts, dids) := d in
  entry ← gets (lookupAuthUrl url);
  match entry with
  | Entry info =>
      modify (λ s, set_authUrls
        (<[url := {| ai_authorizedAccounts := Some accounts;
                     ai_authorizedDids :=
                       match dids with
                       | Some ds => Some ds
                       | None => ai_authorizedDids info
                       end;
                     ai_count := ai_count info;
                     ai_id := ai_id info;
                     ai_isAllowed := ai_isAllowed info;
                     ai_origin := ai_origin info;
                     ai_url := ai_url info |}]> (authUrls s)) s)
  | Builtin name =>
      modify (λ s, set_inheritedProps
        (<[name := (accounts,
                    match dids with
                    | Some ds => Some ds
                    | None => inheritedProps s !! name ≫= snd
                    end)]> (inheritedProps s)) s)
  | WrittenList => mret tt
  | Undefined => throw TypeError
  end.

Definition updateAuthorizedAccounts (authorizedAccountDiff : AuthorizedAccountsDiff)
    : M unit :=
  forEach updateAuthorizedEntry authorizedAccountDiff ;;
  saveCurrentAuthList.

(** What the promise returned by [authorizeUrl] is: already resolved
    with a response, or pending under the id of the enqueued request. *)
Inductive AuthorizeOutcome : Type :=
  | Resolved (r : AuthResponse)
  | Enqueued (id : string).

Definition sameIdStr (idStr : option string) (r : AuthRequest) : bool :=
  bool_decide (ar_idStr r = idStr).

Definition authorizeUrl (url : string) (request : string) : M AuthorizeOutcome :=
  idStr ← lift (stripUrl url);
  isDuplicate ← gets (λ s, existsb (sameIdStr idStr) (Obj.values (authRequests s)));
  assert (negb isDuplicate) (PendingAuthorization url) ;;
  entry ← gets (lookupAuthUrl (propKey idStr));
  if defined entry then
    (* this url was seen in the past *)
    known ← gets (hasAccounts entry);
    assert (known || isAllowed entry) (NotAllowed url) ;;
    mret (Resolved {| result_ := false;
                      authorizedAccounts := [];
                      authorizedDids := [] |})
  else
    id ← getId;
    modify (λ s, set_authRequests
              (Obj.set id {| ar_id := id; ar_idStr := idStr;
                             ar_request := request; ar_url := url |}
                 (authRequests s)) s) ;;
    updateIconAuth false ;;
    popupOpen ;;
    mret (Enqueued id).

Definition injectMetadata (url : string) (request : MetadataDef) : M string :=
  id ← getId;
  modify (λ s, set_metaRequests
            (Obj.set id {| mr_id := id; mr_request := request; mr_url := url |}
               (metaRequests s)) s) ;;
  updateIconMeta false ;;
  popupOpen ;;
  mret id.

Definition sign (url : string) (request : SignerPayload) (account : string) : M string :=
  id ← getId;
  modify (λ s, set_signRequests
            (Obj.set id {| sr_account := account; sr_id := id;
                           sr_request := request; sr_url := url |}
               (signRequests s)) s) ;;
  updateIconSign false ;;
  popupOpen ;;
  mret id.

Definition didSign (url : string) (request : SignerPayload) (did : string)
    (name : option string) : M string :=
  id ← getId;
  modify (λ s, set_didSignRequests
            (Obj.set id {| dr_did := did; dr_id := id; dr_name := name;
                           dr_request := request; dr_url := url |}
               (didSignRequests s)) s) ;;
  updateIconDidSign false ;;
  popupOpen ;;
  mret id.

Definition saveMetadata (meta : MetadataDef) : M unit :=
  modify (λ s, set_metaStore (Obj.set (genesisHash meta) meta (metaStore s)) s) ;;
  modify (λ s, set_definitions (<[genesisHash meta := meta]> (definitions s)) s).

Definition setNotification (n : string) : M bool :=
  modify (set_notification n) ;; mret true.

(** ** extractMetadata

    [knownGenesis] (networks/defaults) is a table from a chain name to the
    genesis hashes the chain has had, newest first; it is a parameter. *)
Record DefEntry : Type := {
  de_def : MetadataDef;
  de_index : Z;
  de_key : string
}.

(** [Array.prototype.indexOf]: -1 when the element is missing. *)
Fixpoint indexOf (x : string) (l : list string) : Z :=
  match l with
  | [] => -1
  | y :: l' =>
      if decide (y = x) then 0
      else let i := indexOf x l' in if decide (i = -1)%Z then -1 else (i + 1)%Z
  end.

Definition knownEntry (knownEntries : list (string * list string)) (hash : string)
    : option (string * list string) :=
  List.find (λ e, bool_decide (hash ∈ e.2)) knownEntries.

Definition extractStep (knownEntries : list (string * list string))
    (acc : JsObject DefEntry * list string) (kd : string * MetadataDef)
    : JsObject DefEntry * list string :=
  let '(defs, removals) := acc in
  let '(key, def) := kd in
  match knownEntry knownEntries (genesisHash def) with
  | Some (name, hashes) =>
      let index := indexOf (genesisHash def) hashes in
      let fresh := {| de_def := def; de_index := index; de_key := key |} in
      match Obj.get name defs with
      | None => (Obj.set name fresh defs, removals)
      | Some old =>
          if bool_decide (de_index old > index)%Z
          then (Obj.set name fresh defs, (removals ++ [de_key old])%list)
          else (defs, removals)
      end
  | None =>
      (Obj.set key {| de_def := def; de_index := 0; de_key := key |} defs, removals)
  end.

Definition extractPlan (knownEntries : list (string * list string))
    (map : JsObject MetadataDef) : JsObject DefEntry * list string :=
  foldl (extractStep knownEntries) ([], []) (Obj.entries map).

Definition addMetadata (def : MetadataDef) : M unit :=
  modify (λ s, set_definitions (<[genesisHash def := def]> (definitions s)) s).

Definition extractMetadata (knownGenesis : list (string * list string)) : M unit :=
  map ← gets metaStore;
  let '(defs, removals) := extractPlan knownGenesis map in
  forEach (λ key, modify (λ s, set_metaStore (Obj.delete key (metaStore s)) s))
    removals ;;
  forEach (λ e, addMetadata (de_def e)) (Obj.values defs).

(** ** The constructor of [State]

    What the background service finds when it starts: the two durable
    entries, the stores, the keyring and the notification setting. *)
Record Startup : Type := {
  startup_authUrls : option (gmap string AuthUrlInfo);
  startup_defaultAuthAccounts : option (list string);
  startup_metaStore : JsObject MetadataDef;
  startup_didsStore : gmap string DidJson;
  startup_pairs : gmap string KeyringPair;
  startup_notification : string;
  startup_knownGenesis : list (string * list string)
}.

Definition construct (env : Startup) : State :=
  let s0 :=
    {| authUrls := default ∅ (startup_authUrls env);
       authRequests := [];
       metaRequests := [];
       signRequests := [];
       didSignRequests := [];
       notification := startup_notification env;
       windows := [];
       defaultAuthAccountSelection := default [] (startup_defaultAuthAccounts env);
       authSubject := [];
       metaSubject := [];
       signSubject := [];
       didSignSubject := [];
       cachedUnlocks := ∅;
       counter := 0;
       settled := [];
       storedAuthUrls := startup_authUrls env;
       storedDefaultAuthAccounts := startup_defaultAuthAccounts env;
       metaStore := startup_metaStore env;
       definitions := ∅;
       didsStore := startup_didsStore env;
       pairs := startup_pairs env;
       badgeText := "";
       chromeWindows := [];
       nextWindowId := 1;
       inheritedProps := ∅ |} in
  (extractMetadata (startup_knownGenesis env) s0).2.

(** ** Extension.ts

    Three things the handlers use are not part of the sources and are
    parameters: the constant [PASSWORD_EXPIRY_MS] (defaults), the
    signature [request.sign] produces for a payload with the key of an
    address, and the addresses the keyring's [decodeAddress] accepts.
    [Date.now()] is the argument [now] of a command. *)

(** The first loop of [accountsForget]: the diff for the entries whose
    account list includes the address.  Reading [includes] of an entry
    without account list, own or inherited, throws. *)
Fixpoint forgetDiff (address : string) (inherited : option (list string))
    (urls : list (string * AuthUrlInfo)) : result AuthorizedAccountsDiff :=
  match urls with
  | [] => Ok []
  | (url, urlInfo) :: urls' =>
      let accounts :=
        match ai_authorizedAccounts urlInfo with
        | Some l => Some l
        | None => inherited
        end in
      match accounts with
      | None => Throw TypeError
      | Some l =>
          match forgetDiff address inherited urls' with
          | Throw e => Throw e
          | Ok diff =>
              Ok (if bool_decide (address ∈ l)
                  then (url,
                        filter (λ previousAddress, previousAddress ≠ address) l,
                        None) :: diff
                  else diff)
          end
      end
  end.

Section Extension.

Variable PASSWORD_EXPIRY_MS : Z.
Variable signWith : SignerPayload → string → string.
Variable decodable : string → bool.

Definition lockPair (p : KeyringPair) : KeyringPair :=
  {| pair_address := pair_address p; pair_isLocked := true;
     pair_passphrase := pair_passphrase p |}.

Definition unlockPair (p : KeyringPair) : KeyringPair :=
  {| pair_address := pair_address p; pair_isLocked := false;
     pair_passphrase := pair_passphrase p |}.

(** [pair.lock()] on the pair the keyring holds for [address]. *)
Definition lock (address : string) : M unit :=
  modify (λ s, set_pairs (alter lockPair address (pairs s)) s).

(** [pair.decodePkcs8(password)]: unlocks the pair when the password is
    the pair's passphrase and throws otherwise. *)
Definition decodePkcs8 (address : string) (password : string) : M unit :=
  p ← gets (λ s, pairs s !! address);
  match p with
  | None => throw TypeError
  | Some keyPair =>
      if decide (password = pair_passphrase keyPair)
      then modify (λ s, set_pairs (<[address := unlockPair keyPair]> (pairs s)) s)
      else throw UnableToDecode
  end.

Definition isLocked (address : string) (s : State) : bool :=
  match pairs s !! address with
  | Some keyPair => pair_isLocked keyPair
  | None => false
  end.

Definition refreshAccountPasswordCache (address : string) (keyPair : KeyringPair)
    (now : Z) : M Z :=
  savedExpiry ← gets (λ s, default 0%Z (cachedUnlocks s !! pair_address keyPair));
  let remainingTime := (savedExpiry - now)%Z in
  if bool_decide (remainingTime < 0)%Z then
    modify (λ s, set_cachedUnlocks (<[pair_address keyPair := 0%Z]> (cachedUnlocks s)) s) ;;
    lock address ;;
    mret 0%Z
  else mret remainingTime.

(** [keyring.forgetAccount]: the keyring decodes the address, which
    throws for a string that is no address, and drops the pair. *)
Definition forgetAccount (address : string) : M unit :=
  assert (decodable address) (InvalidAddress address) ;;
  modify (λ s, set_pairs (delete address (pairs s)) s).

Definition accountsForget (address : string) : M bool :=
  urls ← gets (λ s, map_to_list (authUrls s));
  inherited ← gets (λ s, fst <$> onPrototype s);
  authorizedAccountsDiff ← lift (forgetDiff address inherited urls);
  updateAuthorizedAccounts authorizedAccountsDiff ;;
  selection ← gets defaultAuthAccountSelection;
  updateDefaultAuthAccounts
    (filter (λ defaultSelectionAddress, defaultSelectionAddress ≠ address) selection) ;;
  forgetAccount address ;;
  mret true.

Definition authorizeApprove (accounts dids : list string) (id : string) : M bool :=
  queued ← gets (λ s, Obj.get id (authRequests s));
  assert (bool_decide (is_Some queued)) UnableToFindRequest ;;
  authResolve id {| result_ := true; authorizedAccounts := accounts;
                    authorizedDids := dids |} ;;
  mret true.

Definition authorizeUpdate (accounts : list string) (dids : option (list string))
    (url : string) : M unit :=
  updateAuthorizedAccounts [(url, accounts, dids)].

Definition getAuthList : M (gmap string AuthUrlInfo) := gets authUrls.

Definition metadataApprove (id : string) : M bool :=
  queued ← gets (λ s, Obj.get id (metaRequests s));
  match queued with
  | None => throw UnableToFindRequest
  | Some q =>
      saveMetadata (mr_request q) ;;
      metaResolve id true ;;
      mret true
  end.

Definition metadataReject (id : string) : M bool :=
  queued ← gets (λ s, Obj.get id (metaRequests s));
  assert (bool_decide (is_Some queued)) UnableToFindRequest ;;
  metaReject id RejectedError ;;
  mret true.

Definition signingApprovePassword (id password : string) (savePass : bool)
    (now : Z) : M bool :=
  queued ← gets (λ s, Obj.get id (signRequests s));
  match queued with
  | None => throw UnableToFindRequest
  | Some q =>
      let address := sr_account q in
      found ← gets (λ s, pairs s !! address);
      match found with
      | None =>
          signReject id UnableToFindPair ;;
          mret false
      | Some keyPair =>
          refreshAccountPasswordCache address keyPair now ;;
          (* if the keyring pair is locked, the password is needed *)
          locked ← gets (isLocked address);
          when (locked && bool_decide (password = ""))
            (signReject id PasswordNeeded) ;;
          locked ← gets (isLocked address);
          when locked (decodePkcs8 address password) ;;
          let signature := signWith (sr_request q) (pair_address keyPair) in
          (if savePass
           then modify (λ s, set_cachedUnlocks
                          (<[pair_address keyPair := (now + PASSWORD_EXPIRY_MS)%Z]>
                             (cachedUnlocks s)) s)
           else lock address) ;;
          signResolve id {| rs_id := id; rs_signature := signature |} ;;
          mret true
      end
  end.

Definition signingApproveSignature (id signature : string) : M bool :=
  queued ← gets (λ s, Obj.get id (signRequests s));
  assert (bool_decide (is_Some queued)) UnableToFindRequest ;;
  signResolve id {| rs_id := id; rs_signature := signature |} ;;
  mret true.

Definition signingCancel (id : string) : M bool :=
  queued ← gets (λ s, Obj.get id (signRequests s));
  assert (bool_decide (is_Some queued)) UnableToFindRequest ;;
  signReject id CancelledError ;;
  mret true.

Definition signingIsLocked (id : string) (now : Z) : M (bool * Z) :=
  queued ← gets (λ s, Obj.get id (signRequests s));
  match queued with
  | None => throw UnableToFindRequest
  | Some q =>
      let address := payload_address (sr_request q) in
      found ← gets (λ s, pairs s !! address);
      match found with
      | None => throw UnableToFindPair
      | Some keyPair =>
          remainingTime ← refreshAccountPasswordCache address keyPair now;
          locked ← gets (isLocked address);
          mret (locked, remainingTime)
      end
  end.

(** The lookup in the DID store and the decoding of the DID key run
    without other commands in between. *)
Definition didsSignApprove (id password : string) : M bool :=
  queued ← gets (λ s, Obj.get id (didSignRequests s));
  match queued with
  | None => throw UnableToFindDidSigningRequest
  | Some q =>
      json ← gets (λ s, didsStore s !! ("did:" +:+ dr_did q));
      match json with
      | None => throw DidNotFoundError
      | Some didJson =>
          if decide (password = did_passphrase didJson) then
            let signature := signWith (dr_request q) (did_address didJson) in
            didSignResolve id {| rs_id := id; rs_signature := signature |} ;;
            mret true
          else
            didSignReject id WrongDidPassword ;;
            mret false
      end
  end.

Definition didsSignCancel (id : string) : M bool :=
  queued ← gets (λ s, Obj.get id (didSignRequests s));
  assert (bool_decide (is_Some queued)) UnableToFindDidSigningRequest ;;
  didSignReject id CancelledError ;;
  mret true.

(** The commands of the dispatcher that act on the broker's state. *)
Inductive message : Type :=
  | AuthorizeApprove (accounts dids : list string) (id : string)
  | AuthorizeList
  | AuthorizeRemove (url : string)
  | AuthorizeDeleteRequest (id : string)
  | AuthorizeUpdate (accounts : list string) (dids : option (list string)) (url : string)
  | AccountsForget (address : string)
  | MetadataApprove (id : string)
  | MetadataReject (id : string)
  | SettingsNotification (n : string)
  | SigningApprovePassword (id password : string) (savePass : bool)
  | SigningApproveSignature (id signature : string)
  | SigningCancel (id : string)
  | SigningIsLocked (id : string)
  | DidsSignApprove (id password : string)
  | DidsSignCancel (id : string).

Inductive response : Type :=
  | RBool (b : bool)
  | RVoid
  | RAuthList (list_ : gmap string AuthUrlInfo)
  | RIsLocked (isLocked_ : bool) (remainingTime : Z).

Definition handle (msg : message) (now : Z) : M response :=
  match msg with
  | AuthorizeApprove accounts dids id => RBool <$> authorizeApprove accounts dids id
  | AuthorizeList => RAuthList <$> getAuthList
  | AuthorizeRemove url => RAuthList <$> removeAuthorization url
  | AuthorizeDeleteRequest id => deleteAuthRequest id ;; mret RVoid
  | AuthorizeUpdate accounts dids url => authorizeUpdate accounts dids url ;; mret RVoid
  | AccountsForget address => RBool <$> accountsForget address
  | MetadataApprove id => RBool <$> metadataApprove id
  | MetadataReject id => RBool <$> metadataReject id
  | SettingsNotification n => RBool <$> setNotification n
  | SigningApprovePassword id password savePass =>
      RBool <$> signingApprovePassword id password savePass now
  | SigningApproveSignature id signature => RBool <$> signingApproveSignature id signature
  | SigningCancel id => RBool <$> signingCancel id
  | SigningIsLocked id =>
      r ← signingIsLocked id now; mret (RIsLocked r.1 r.2)
  | DidsSignApprove id password => RBool <$> didsSignApprove id password
  | DidsSignCancel id => RBool <$> didsSignCancel id
  end.

(** ** Reachable states

    The service starts from [construct] and then serves, one at a time,
    requests of pages (the four enqueueing methods of [State]), commands
    of the dispatcher, calls of the [reject] continuation a pending
    authorize request carries, and changes other commands make to the
    keyring and to the DID store. *)
Inductive call : Type :=
  | CallAuthorizeUrl (url request : string)
  | CallInjectMetadata (url : string) (request : MetadataDef)
  | CallSign (url : string) (request : SignerPayload) (account : string)
  | CallDidSign (url : string) (request : SignerPayload) (did : string)
      (name : option string)
  | CallAuthReject (id : string) (e : error)
  | CallHandle (msg : message) (now : Z)
  | KeyringChanged (p : gmap string KeyringPair)
  | DidsStoreChanged (d : gmap string DidJson).

Definition exec (c : call) : M unit :=
  match c with
  | CallAuthorizeUrl url request => authorizeUrl url request ;; mret tt
  | CallInjectMetadata url request => injectMetadata url request ;; mret tt
  | CallSign url request account => sign url request account ;; mret tt
  | CallDidSign url request did name => didSign url request did name ;; mret tt
  | CallAuthReject id e => authReject id e
  | CallHandle msg now => handle msg now ;; mret tt
  | KeyringChanged p => modify (set_pairs p)
  | DidsStoreChanged d => modify (set_didsStore d)
  end.

Definition run (cs : list call) (s : State) : State :=
  foldl (λ s c, (exec c s).2) s cs.

Inductive reachable : State → Prop :=
  | reachable_construct env : reachable (construct env)
  | reachable_exec s c : reachable s → reachable (exec c s).2.

End Extension.

(** * Vocabulary of the properties *)

(** ** Resolutions and resolution commands *)

(** The state an authorize request leaves when it completes, before the
    icon refresh. *)
Definition authCompleted (id : string) (accounts dids : list string)
    (r : AuthRequest) (key : option string) (s : State) : State :=
  let urls :=
    <[propKey key := {| ai_authorizedAccounts := Some accounts;
                        ai_authorizedDids := Some dids;
                        ai_count := 0;
                        ai_id := ar_idStr r;
                        ai_isAllowed := None;
                        ai_origin := ar_request r;
                        ai_url := ar_url r |}]> (authUrls s) in
  let requests := Obj.delete id (authRequests s) in
  set_authSubject
    ((λ r, {| aq_id := ar_id r; aq_request := ar_request r; aq_url := ar_url r |})
       <$> Obj.values requests)
    (set_authRequests requests
       (set_storedDefaultAuthAccounts (Some accounts)
          (set_defaultAuthAccountSelection accounts
             (set_storedAuthUrls (Some urls) (set_authUrls urls s))))).

Inductive kind : Type := Authorize | Sign | DidSign | Metadata.

(** [peek]: whether the table of a kind holds a request under the id
    ([getAuthRequest], [getSignRequest], ...). *)
Definition peek (k : kind) (id : string) (s : State) : bool :=
  match k with
  | Authorize => bool_decide (is_Some (Obj.get id (authRequests s)))
  | Sign => bool_decide (is_Some (Obj.get id (signRequests s)))
  | DidSign => bool_decide (is_Some (Obj.get id (didSignRequests s)))
  | Metadata => bool_decide (is_Some (Obj.get id (metaRequests s)))
  end.

(** The ways a pending request is resolved: the [resolve] or the [reject]
    continuation stored with it, with any result or error. *)
Inductive resolution : Type :=
  | AuthResolved (r : AuthResponse)
  | AuthRejected (e : error)
  | SignResolved (r : ResponseSigning)
  | SignRejected (e : error)
  | DidSignResolved (r : ResponseSigning)
  | DidSignRejected (e : error)
  | MetaResolved (b : bool)
  | MetaRejected (e : error).

Definition kindOf (r : resolution) : kind :=
  match r with
  | AuthResolved _ | AuthRejected _ => Authorize
  | SignResolved _ | SignRejected _ => Sign
  | DidSignResolved _ | DidSignRejected _ => DidSign
  | MetaResolved _ | MetaRejected _ => Metadata
  end.

Definition resolveWith (id : string) (r : resolution) : M unit :=
  match r with
  | AuthResolved v => authResolve id v
  | AuthRejected e => authReject id e
  | SignResolved v => signResolve id v
  | SignRejected e => signReject id e
  | DidSignResolved v => didSignResolve id v
  | DidSignRejected e => didSignReject id e
  | MetaResolved b => metaResolve id b
  | MetaRejected e => metaReject id e
  end.

(** The approve, reject and cancel commands of each kind. *)
Inductive resolutionCommand (id : string) : kind → message → Prop :=
  | rc_authorizeApprove accounts dids :
      resolutionCommand id Authorize (AuthorizeApprove accounts dids id)
  | rc_metadataApprove : resolutionCommand id Metadata (MetadataApprove id)
  | rc_metadataReject : resolutionCommand id Metadata (MetadataReject id)
  | rc_signingApprovePassword password savePass :
      resolutionCommand id Sign (SigningApprovePassword id password savePass)
  | rc_signingApproveSignature signature :
      resolutionCommand id Sign (SigningApproveSignature id signature)
  | rc_signingCancel : resolutionCommand id Sign (SigningCancel id)
  | rc_didsSignApprove password :
      resolutionCommand id DidSign (DidsSignApprove id password)
  | rc_didsSignCancel : resolutionCommand id DidSign (DidsSignCancel id).

(** ** The authorize table

    A computation [keeps] the authorize table when it leaves it as it
    found it. *)
Definition keeps {A} (m : M A) : Prop :=
  ∀ s, authRequests (m s).2 = authRequests s.

(** The invariant of the authorize table: every pending authorize
    request carries the origin [stripUrl] gives for its url, and no two
    pending requests carry the same origin. *)
Definition pendingOk (o : JsObject AuthRequest) : Prop :=
  (∀ kv, kv ∈ o → stripUrl (ar_url kv.2) = Ok (ar_idStr kv.2))
  ∧ NoDup (ar_idStr <$> Obj.values o).

(** No pending authorize request has an origin [Object.prototype] has a
    property for. *)
Definition ownOrigins (o : JsObject AuthRequest) : Prop :=
  ∀ kv, kv ∈ o → propKey (ar_idStr kv.2) ∉ objectPrototypeNames.

(** ** The authorization store *)

(** The response of [authorizeUrl] for an origin the store knows. *)
Definition notAskedAgain : AuthResponse :=
  {| result_ := false; authorizedAccounts := []; authorizedDids := [] |}.

(** What a completed authorize request leaves: the entry under the
    request's origin in the store, the same store in durable storage, and
    a later [authorizeUrl] for the origin short-circuited. *)
Definition recorded (id : string) (r : AuthRequest)
    (accounts dids : list string) (s' : State) : Prop :=
  (∃ info, authUrls s' !! propKey (ar_idStr r) = Some info
           ∧ ai_authorizedAccounts info = Some accounts
           ∧ ai_authorizedDids info = Some dids
           ∧ ai_count info = 0)
  ∧ storedAuthUrls s' = Some (authUrls s')
  ∧ Obj.get id (authRequests s') = None
  ∧ ∀ url request,
      stripUrl url = Ok (ar_idStr r) →
      authorizeUrl url request s' = (Ok (Resolved notAskedAgain), s').

(** The write [updateAuthorizedAccounts] makes to one entry. *)
Definition applyEntry (accounts : list string) (dids : option (list string))
    (info : AuthUrlInfo) : AuthUrlInfo :=
  {| ai_authorizedAccounts := Some accounts;
     ai_authorizedDids :=
       match dids with Some ds => Some ds | None => ai_authorizedDids info end;
     ai_count := ai_count info;
     ai_id := ai_id info;
     ai_isAllowed := ai_isAllowed info;
     ai_origin := ai_origin info;
     ai_url := ai_url info |}.

Definition applyDiff (diff : AuthorizedAccountsDiff)
    (urls : gmap string AuthUrlInfo) : gmap string AuthUrlInfo :=
  foldl (λ m d, alter (applyEntry d.1.2 d.2) d.1.1 m) urls diff.

(** A list of addresses without one address. *)
Definition without (address : string) (l : list string) : list string :=
  filter (λ a, a ≠ address) l.

(** An entry of the store with the address taken out of its account
    list. *)
Definition scrub (address : string) (info : AuthUrlInfo) : AuthUrlInfo :=
  match ai_authorizedAccounts info with
  | Some l => applyEntry (without address l) None info
  | None => info
  end.

(** The state [accountsForget] leaves before it turns to the keyring,
    and the state it leaves when the keyring accepts the address. *)
Definition scrubbed (address : string) (s : State) : State :=
  let urls := scrub address <$> authUrls s in
  let selection := without address (defaultAuthAccountSelection s) in
  set_storedDefaultAuthAccounts (Some selection)
    (set_defaultAuthAccountSelection selection
       (set_storedAuthUrls (Some urls) (set_authUrls urls s))).

Definition forgotten (address : string) (s : State) : State :=
  set_pairs (delete address (pairs s)) (scrubbed address s).

(** Every entry of the store has an account list of its own. *)
Definition listed (urls : gmap string AuthUrlInfo) : Prop :=
  map_Forall (λ _ info, is_Some (ai_authorizedAccounts info)) urls.

(** The diff [accountsForget] prepares from entries with account lists. *)
Definition forgetEntries (address : string) (urls : list (string * AuthUrlInfo))
    : AuthorizedAccountsDiff :=
  omap (λ e : string * AuthUrlInfo,
          match ai_authorizedAccounts e.2 with
          | Some l =>
              if bool_decide (address ∈ l)
              then Some (e.1, without address l, None)
              else None
          | None => None
          end) urls.

(** The key names something [#authUrls] inherits. *)
Definition inherits (key : string) (s : State) : bool :=
  bool_decide (key ∈ objectPrototypeNames)
  || match onPrototype s with
     | Some (_, dids) =>
         bool_decide (key = "authorizedAccounts")
         || bool_decide (key = "authorizedDids") && bool_decide (is_Some dids)
     | None => false
     end.

(** ** Concrete inputs *)

(** A table with one chain family of two genesis hashes, newest first. *)
Definition newHash : string := "0xb0a8d493285c2df73290dfb7e61f870f17b41801197a149ca93654499ea3dafe".

Definition oldHash : string := "0xe3777fa922cafbff200cadeaea1a76bd7898ad5b89f7848999058b50e715f636".

Definition sampleGenesis : list (string * list string) :=
  [("kusama", [newHash; oldHash])].

Definition newDef : MetadataDef :=
  {| genesisHash := newHash; chain := "Kusama"; specVersion := 30 |}.

Definition oldDef : MetadataDef :=
  {| genesisHash := oldHash; chain := "Kusama CC2"; specVersion := 12 |}.

Definition startupWith (store : JsObject MetadataDef) : Startup :=
  {| startup_authUrls := None;
     startup_defaultAuthAccounts := None;
     startup_metaStore := store;
     startup_didsStore := ∅;
     startup_pairs := ∅;
     startup_notification := "popup";
     startup_knownGenesis := sampleGenesis |}.

Definition sampleExpiry : Z := 900000.

Definition sampleSign (payload : SignerPayload) (address : string) : string :=
  "signed:" +:+ address +:+ ":" +:+ payload_data payload.

Definition sampleDecodable (address : string) : bool := String.prefix "5" address.

Definition alice : KeyringPair :=
  {| pair_address := "5Alice"; pair_isLocked := true;
     pair_passphrase := "correct horse" |}.

Definition sampleStartup : Startup :=
  {| startup_authUrls := None;
     startup_defaultAuthAccounts := Some ["5Alice"];
     startup_metaStore := [];
     startup_didsStore := ∅;
     startup_pairs := {["5Alice" := alice]};
     startup_notification := "popup";
     startup_knownGenesis := sampleGenesis |}.

Definition started : State := construct sampleStartup.

(** Two pages ask for authorization, the first with a url that has no
    host part; the first request is then approved. *)
Definition approvedWithoutHost : State :=
  run sampleExpiry sampleSign sampleDecodable
    [CallAuthorizeUrl "http:" "first page";
     CallAuthorizeUrl "http://undefined/a" "second page";
     CallHandle (AuthorizeApprove ["5Alice"] [] "request.1") 0]
    started.

Definition dappPayload : SignerPayload :=
  {| payload_address := "5Alice"; payload_data := "0xdeadbeef";
     payload_genesisHash := None |}.

(** A page asks for a signature with the locked account. *)
Definition signQueued : State :=
  run sampleExpiry sampleSign sampleDecodable
    [CallSign "https://dapp.example/" dappPayload "5Alice"] started.

Definition signRequest1 : SignRequest :=
  {| sr_account := "5Alice"; sr_id := "request.1";
     sr_request := dappPayload; sr_url := "https://dapp.example/" |}.

(** A page asks for a signature with a DID that has no stored key. *)
Definition didSignQueued : State :=
  run sampleExpiry sampleSign sampleDecodable
    [CallDidSign "https://dapp.example/" dappPayload "qsb:7f3a" None] started.

Definition didSignRequest1 : DidSignRequest :=
  {| dr_did := "qsb:7f3a"; dr_id := "request.1"; dr_name := None;
     dr_request := dappPayload; dr_url := "https://dapp.example/" |}.

(** A page asks for authorization. *)
Definition authQueued : State :=
  run sampleExpiry sampleSign sampleDecodable
    [CallAuthorizeUrl "https://dapp.example/app" "dapp"] started.

Definition authRequest1 : AuthRequest :=
  {| ar_id := "request.1"; ar_idStr := Some "dapp.example";
     ar_request := "dapp"; ar_url := "https://dapp.example/app" |}.

(** The request is approved for one account. *)
Definition authApproved : State :=
  run sampleExpiry sampleSign sampleDecodable
    [CallHandle (AuthorizeApprove ["5Alice"] [] "request.1") 0] authQueued.

Definition dappEntry : AuthUrlInfo :=
  {| ai_authorizedAccounts := Some ["5Alice"];
     ai_authorizedDids := Some [];
     ai_count := 0;
     ai_id := Some "dapp.example";
     ai_isAllowed := None;
     ai_origin := "dapp";
     ai_url := "https://dapp.example/app" |}.

(** The service starts with a store a version before 0.44.1 wrote: one
    site allowed, one denied, neither with an account list, beside the
    entry of the dapp. *)
Definition allowedEntry : AuthUrlInfo :=
  {| ai_authorizedAccounts := None;
     ai_authorizedDids := None;
     ai_count := 3;
     ai_id := Some "old.example";
     ai_isAllowed := Some true;
     ai_origin := "old";
     ai_url := "https://old.example/" |}.

Definition deniedEntry : AuthUrlInfo :=
  {| ai_authorizedAccounts := None;
     ai_authorizedDids := None;
     ai_count := 0;
     ai_id := Some "denied.example";
     ai_isAllowed := Some false;
     ai_origin := "denied";
     ai_url := "https://denied.example/" |}.

Definition olderStore : gmap string AuthUrlInfo :=
  {[ "old.example" := allowedEntry;
     "denied.example" := deniedEntry;
     "dapp.example" := dappEntry ]}.

Definition olderStartup : Startup :=
  {| startup_authUrls := Some olderStore;
     startup_defaultAuthAccounts := Some ["5Alice"];
     startup_metaStore := [];
     startup_didsStore := ∅;
     startup_pairs := {["5Alice" := alice]};
     startup_notification := "popup";
     startup_knownGenesis := sampleGenesis |}.

Definition olderStarted : State := construct olderStartup.

(** * Properties *)

(** ** Facts about objects *)

Module ObjFacts.

Lemma get_delete_eq {A} k (o : JsObject A) : Obj.get k (Obj.delete k o) = None.
Proof.
  induction o as [|[k' v] o IH]; [done|].
  unfold Obj.delete in *. rewrite filter_cons. simpl.
  destruct (decide (k' ≠ k)) as [Hne|Heq]; [|done].
  simpl. destruct (decide (k = k')); [congruence|done].
Qed.

Lemma get_delete_ne {A} k k' (o : JsObject A) :
  k ≠ k' → Obj.get k' (Obj.delete k o) = Obj.get k' o.
Proof.
  intros Hne. induction o as [|[k0 v] o IH]; [done|].
  unfold Obj.delete in *. rewrite filter_cons. simpl.
  destruct (decide (k0 ≠ k)) as [H0|H0]; simpl.
  - destruct (decide (k' = k0)); [done|apply IH].
  - apply dec_stable in H0. subst k0.
    destruct (decide (k' = k)); [congruence|apply IH].
Qed.

Lemma delete_absent {A} k (o : JsObject A) : Obj.get k o = None → Obj.delete k o = o.
Proof.
  induction o as [|[k' v] o IH]; [done|]. simpl.
  destruct (decide (k = k')); [done|]. intros Hget.
  unfold Obj.delete in *. rewrite filter_cons. simpl.
  destruct (decide (k' ≠ k)) as [_|Hk]; [by rewrite IH|].
  apply dec_stable in Hk. congruence.
Qed.

Lemma get_set_eq {A} k v (o : JsObject A) : Obj.get k (Obj.set k v o) = Some v.
Proof.
  induction o as [|[k' v'] o IH]; simpl.
  - by rewrite decide_True.
  - destruct (decide (k = k')); simpl.
    + by rewrite decide_True.
    + by rewrite decide_False.
Qed.

Lemma get_set_ne {A} k k' v (o : JsObject A) :
  k ≠ k' → Obj.get k' (Obj.set k v o) = Obj.get k' o.
Proof.
  intros Hne. induction o as [|[k0 v0] o IH]; simpl.
  - by rewrite decide_False.
  - destruct (decide (k = k0)); simpl.
    + subst k0. by rewrite !decide_False.
    + destruct (decide (k' = k0)); [done|apply IH].
Qed.

Lemma get_Some_elem_of {A} k v (o : JsObject A) : Obj.get k o = Some v → (k, v) ∈ o.
Proof.
  induction o as [|[k' v'] o IH]; [done|]. simpl.
  destruct (decide (k = k')).
  - intros [= ->]. subst. apply list_elem_of_here.
  - intros H. apply list_elem_of_further. by apply IH.
Qed.

Lemma elem_of_delete {A} k kv (o : JsObject A) :
  kv ∈ Obj.delete k o ↔ kv ∈ o ∧ kv.1 ≠ k.
Proof. unfold Obj.delete. rewrite list_elem_of_filter. tauto. Qed.

Lemma elem_of_set {A} k v kv (o : JsObject A) :
  kv ∈ Obj.set k v o → kv = (k, v) ∨ kv ∈ o.
Proof.
  induction o as [|[k' v'] o IH]; simpl.
  - rewrite list_elem_of_singleton. tauto.
  - destruct (decide (k = k')).
    + rewrite !elem_of_cons. tauto.
    + rewrite !elem_of_cons. intros [->|H]; [tauto|].
      destruct (IH H); tauto.
Qed.

End ObjFacts.

(** ** The monad and the icon refresh *)

Lemma bind_Ok {A B} (m : M A) (f : A → M B) s a s' :
  m s = (Ok a, s') → (m ≫= f) s = f a s'.
Proof. intros H. unfold mbind, M_bind. by rewrite H. Qed.

Lemma bind_Throw {A B} (m : M A) (f : A → M B) s e s' :
  m s = (Throw e, s') → (m ≫= f) s = (Throw e, s').
Proof. intros H. unfold mbind, M_bind. by rewrite H. Qed.

Lemma bind_Ok_inv {A B} (m : M A) (f : A → M B) s b :
  ((m ≫= f) s).1 = Ok b → ∃ a s', m s = (Ok a, s').
Proof. unfold mbind, M_bind. destruct (m s) as [[a|e] s']; [eauto|done]. Qed.

Arguments updateIcon : simpl never.
Arguments popupOpen : simpl never.
Arguments getId : simpl never.
Arguments lookupAuthUrl : simpl never.
Arguments hasAccounts : simpl never.
Arguments isAllowed : simpl never.

Ltac munfold :=
  cbv beta iota delta [mbind M_bind mret M_ret fmap M_fmap gets modify throw
                         lift assert when settle];
  cbn.

(** The icon refresh touches the badge and the windows only. *)
Lemma updateIcon_eq b s :
  ∃ ws cw, updateIcon b s
           = (Ok tt, set_windows ws (set_chromeWindows cw (set_badgeText (badge s) s))).
Proof.
  unfold updateIcon, when, popupClose, gets, modify, mbind, M_bind, mret, M_ret.
  simpl. destruct (b && bool_decide (badge s = "")); simpl; eauto.
Qed.

Ltac icon_step :=
  match goal with
  | |- context [updateIcon ?b ?x] =>
      let ws := fresh "ws" in let cw := fresh "cw" in let E := fresh "E" in
      destruct (updateIcon_eq b x) as (ws & cw & E); rewrite E; clear E
  end.

(** ** The completion steps

    Each completion step deletes the entry, republishes the view of its
    table and refreshes the icon. *)
Lemma signCompleteStep_eq id s :
  ∃ ws cw bt, signCompleteStep id s
    = (Ok tt, set_windows ws (set_chromeWindows cw (set_badgeText bt
         (set_signSubject (Obj.values (Obj.delete id (signRequests s)))
            (set_signRequests (Obj.delete id (signRequests s)) s))))).
Proof. unfold signCompleteStep, updateIconSign. munfold. icon_step. eauto. Qed.

(** Opening the notification surface touches the windows only. *)
Lemma popupOpen_eq s :
  ∃ ws cw n, popupOpen s
             = (Ok tt, set_windows ws (set_chromeWindows cw (set_nextWindowId n s))).
Proof.
  unfold popupOpen. munfold.
  destruct (bool_decide (notification s ≠ "extension")); cbn; [eauto|].
  exists (windows s), (chromeWindows s), (nextWindowId s). by destruct s.
Qed.

Lemma metaCompleteStep_eq id s :
  ∃ ws cw bt, metaCompleteStep id s
    = (Ok tt, set_windows ws (set_chromeWindows cw (set_badgeText bt
         (set_metaSubject (Obj.values (Obj.delete id (metaRequests s)))
            (set_metaRequests (Obj.delete id (metaRequests s)) s))))).
Proof. unfold metaCompleteStep, updateIconMeta. munfold. icon_step. eauto. Qed.

Lemma didSignCompleteStep_eq id s :
  ∃ ws cw bt, didSignCompleteStep id s
    = (Ok tt, set_windows ws (set_chromeWindows cw (set_badgeText bt
         (set_didSignSubject (Obj.values (Obj.delete id (didSignRequests s)))
            (set_didSignRequests (Obj.delete id (didSignRequests s)) s))))).
Proof. unfold didSignCompleteStep, updateIconDidSign. munfold. icon_step. eauto. Qed.

Lemma authCompleteStep_eq id accounts dids s r key :
  Obj.get id (authRequests s) = Some r →
  stripUrl (ar_url r) = Ok key →
  ∃ ws cw bt, authCompleteStep id accounts dids s
    = (Ok tt, set_windows ws (set_chromeWindows cw (set_badgeText bt
         (authCompleted id accounts dids r key s)))).
Proof.
  intros Hget Hurl. unfold authCompleteStep.
  unfold gets at 1. unfold mbind at 1, M_bind at 1. rewrite Hget, Hurl.
  unfold saveCurrentAuthList, updateDefaultAuthAccounts, saveDefaultAuthAccounts,
    updateIconAuth.
  munfold. icon_step. eauto.
Qed.

Lemma authCompleteStep_inv id accounts dids s :
  (authCompleteStep id accounts dids s).1 = Ok tt →
  ∃ r key, Obj.get id (authRequests s) = Some r ∧ stripUrl (ar_url r) = Ok key.
Proof.
  unfold authCompleteStep. unfold gets at 1. unfold mbind at 1, M_bind at 1.
  destruct (Obj.get id (authRequests s)) as [r|]; [|done].
  unfold lift at 1. unfold mbind at 1, M_bind at 1.
  destruct (stripUrl (ar_url r)) as [key|e] eqn:Hurl; [|done]. intros _. by exists r, key.
Qed.

(** ** C1: a resolved request cannot be resolved again *)

Lemma deleted_absent {A} id (o : JsObject A) :
  bool_decide (is_Some (Obj.get id (Obj.delete id o))) = false.
Proof. rewrite ObjFacts.get_delete_eq. apply bool_decide_eq_false. by intros [? ?]. Qed.

Lemma peek_after_resolution id r s :
  (resolveWith id r s).1 = Ok tt →
  peek (kindOf r) id (resolveWith id r s).2 = false.
Proof.
  destruct r; cbn [resolveWith kindOf peek];
    unfold authResolve, authReject, signResolve, signReject, didSignResolve,
      didSignReject, metaResolve, metaReject.
  1,2: intros Hok; destruct (bind_Ok_inv _ _ _ _ Hok) as ([] & s' & Hstep);
    match type of Hstep with authCompleteStep ?i ?a ?d _ = _ =>
      destruct (authCompleteStep_inv i a d s) as (r0 & key & Hget & Hurl);
      [ by rewrite Hstep
      | destruct (authCompleteStep_eq i a d s r0 key Hget Hurl) as (ws & cw & bt & E) ]
    end;
    rewrite (bind_Ok _ _ _ _ _ E); munfold;
    apply deleted_absent.
  1,2: intros _; destruct (signCompleteStep_eq id s) as (ws & cw & bt & E);
    rewrite (bind_Ok _ _ _ _ _ E); munfold;
    apply deleted_absent.
  1,2: intros _; destruct (didSignCompleteStep_eq id s) as (ws & cw & bt & E);
    rewrite (bind_Ok _ _ _ _ _ E); munfold;
    apply deleted_absent.
  1,2: intros _; destruct (metaCompleteStep_eq id s) as (ws & cw & bt & E);
    rewrite (bind_Ok _ _ _ _ _ E); munfold;
    apply deleted_absent.
Qed.

Lemma not_pending_None {A} (o : option A) : bool_decide (is_Some o) = false → o = None.
Proof.
  intros H. apply bool_decide_eq_false in H.
  destruct o; [|done]. by destruct H.
Qed.

(** A resolution command on an id its table does not hold fails with the
    not-found error before it changes anything. *)
Lemma command_on_absent_id expiry signWith decodable k id msg now s :
  peek k id s = false →
  resolutionCommand id k msg →
  ∃ e, handle expiry signWith decodable msg now s = (Throw e, s)
       ∧ classify e = Some NotFound.
Proof.
  intros Hpeek Hcmd.
  destruct Hcmd; simpl in Hpeek; apply not_pending_None in Hpeek; simpl;
    unfold authorizeApprove, metadataApprove, metadataReject,
      signingApprovePassword, signingApproveSignature, signingCancel,
      didsSignApprove, didsSignCancel;
    munfold; rewrite Hpeek; simpl; eauto.
Qed.

(** C1. After a first successful resolve or reject of a request of any
    kind, the request is no longer in its table, and every approve, reject
    or cancel command of that kind on the same id fails with NotFound and
    leaves the whole state, so every pending table, as it was. *)
Theorem second_resolution_fails_NotFound expiry signWith decodable id r msg now s :
  (resolveWith id r s).1 = Ok tt →
  resolutionCommand id (kindOf r) msg →
  peek (kindOf r) id (resolveWith id r s).2 = false
  ∧ ∃ e, handle expiry signWith decodable msg now (resolveWith id r s).2
           = (Throw e, (resolveWith id r s).2)
         ∧ classify e = Some NotFound.
Proof.
  intros Hok Hcmd. pose proof (peek_after_resolution id r s Hok) as Hpeek.
  split; [done|]. by apply (command_on_absent_id _ _ _ (kindOf r) id).
Qed.

(** Deleting an authorize request that is not pending succeeds and
    calls no continuation. *)
Lemma deleteAuthRequest_absent id s :
  Obj.get id (authRequests s) = None →
  (deleteAuthRequest id s).1 = Ok tt
  ∧ authRequests (deleteAuthRequest id s).2 = authRequests s
  ∧ settled (deleteAuthRequest id s).2 = settled s.
Proof.
  intros Hget. unfold deleteAuthRequest, updateIconAuth. munfold. icon_step.
  cbn. by rewrite ObjFacts.delete_absent.
Qed.

(** An enqueued sign request is pending under the id it was given. *)
Lemma sign_enqueued url request account s :
  ∃ s', sign url request account s = (Ok ("request." +:+ pretty (S (counter s))), s')
        ∧ Obj.get ("request." +:+ pretty (S (counter s))) (signRequests s')
          = Some {| sr_account := account;
                    sr_id := "request." +:+ pretty (S (counter s));
                    sr_request := request; sr_url := url |}.
Proof.
  unfold sign, getId, updateIconSign. munfold. icon_step.
  match goal with |- context [popupOpen ?x] =>
    pose proof (popupOpen_eq x) as (ws' & cw' & n & E); rewrite E end.
  eexists. split; [done|]. cbn. apply ObjFacts.get_set_eq.
Qed.

(** ** Computations that keep the authorize table *)

Lemma keeps_ret {A} (a : A) : keeps (mret a).
Proof. done. Qed.

Lemma keeps_throw {A} e : keeps (@throw A e).
Proof. done. Qed.

Lemma keeps_gets {A} (f : State → A) : keeps (gets f).
Proof. done. Qed.

Lemma keeps_lift {A} (r : result A) : keeps (lift r).
Proof. done. Qed.

Lemma keeps_modify f :
  (∀ s, authRequests (f s) = authRequests s) → keeps (modify f).
Proof. intros H s. apply H. Qed.

Lemma keeps_bind {A B} (m : M A) (f : A → M B) :
  keeps m → (∀ a, keeps (f a)) → keeps (m ≫= f).
Proof.
  intros Hm Hf s. unfold mbind, M_bind. specialize (Hm s).
  destruct (m s) as [[a|e] s']; simpl in *; [|done].
  by rewrite Hf.
Qed.

Lemma keeps_fmap {A B} (g : A → B) (m : M A) : keeps m → keeps (g <$> m).
Proof. intros Hm. apply keeps_bind; [done|]. intros a. apply keeps_ret. Qed.

Lemma keeps_assert b e : keeps (assert b e).
Proof. destruct b; [apply keeps_ret|apply keeps_throw]. Qed.

Lemma keeps_when b m : keeps m → keeps (when b m).
Proof. destruct b; [done|]. intros _. apply keeps_ret. Qed.

Lemma keeps_forEach {A} (f : A → M unit) l :
  (∀ a, keeps (f a)) → keeps (forEach f l).
Proof.
  intros Hf. induction l as [|a l IH]; simpl; [apply keeps_ret|].
  apply keeps_bind; [apply Hf|done].
Qed.

Create HintDb keeps.

Ltac keeps_step :=
  lazymatch goal with
  | |- keeps (mret _) => apply keeps_ret
  | |- keeps (throw _) => apply keeps_throw
  | |- keeps (gets _) => apply keeps_gets
  | |- keeps (lift _) => apply keeps_lift
  | |- keeps (assert _ _) => apply keeps_assert
  | |- keeps (modify _) => apply keeps_modify; intros ?; reflexivity
  | |- keeps (when _ _) => apply keeps_when
  | |- keeps (_ <$> _) => apply keeps_fmap
  | |- keeps (forEach _ _) => apply keeps_forEach; intros ?
  | |- keeps (_ ≫= _) => apply keeps_bind; [|intros ?]
  | |- keeps (match ?x with _ => _ end) => destruct x
  | |- keeps _ => solve [auto 1 with keeps nocore]
  end.

Ltac keeps_tac := repeat keeps_step.

Lemma keeps_updateIcon b : keeps (updateIcon b).
Proof. unfold updateIcon, popupClose. keeps_tac. Qed.

Lemma keeps_popupOpen : keeps popupOpen.
Proof. unfold popupOpen. keeps_tac. Qed.

Lemma keeps_getId : keeps getId.
Proof. done. Qed.

Lemma keeps_settle id o : keeps (settle id o).
Proof. unfold settle. keeps_tac. Qed.

#[local] Hint Resolve keeps_updateIcon keeps_popupOpen keeps_getId keeps_settle : keeps.

Lemma keeps_extractMetadata known : keeps (extractMetadata known).
Proof. unfold extractMetadata, addMetadata. keeps_tac. Qed.

Lemma keeps_updateAuthorizedAccounts d : keeps (updateAuthorizedAccounts d).
Proof.
  unfold updateAuthorizedAccounts, updateAuthorizedEntry, saveCurrentAuthList.
  keeps_tac.
Qed.

Lemma keeps_updateDefaultAuthAccounts l : keeps (updateDefaultAuthAccounts l).
Proof. unfold updateDefaultAuthAccounts, saveDefaultAuthAccounts. keeps_tac. Qed.

Lemma keeps_metaCompleteStep id : keeps (metaCompleteStep id).
Proof. unfold metaCompleteStep, updateIconMeta. keeps_tac. Qed.

Lemma keeps_signCompleteStep id : keeps (signCompleteStep id).
Proof. unfold signCompleteStep, updateIconSign. keeps_tac. Qed.

Lemma keeps_didSignCompleteStep id : keeps (didSignCompleteStep id).
Proof. unfold didSignCompleteStep, updateIconDidSign. keeps_tac. Qed.

#[local] Hint Resolve keeps_updateAuthorizedAccounts keeps_updateDefaultAuthAccounts
  keeps_metaCompleteStep keeps_signCompleteStep keeps_didSignCompleteStep : keeps.

Lemma keeps_injectMetadata url request : keeps (injectMetadata url request).
Proof. unfold injectMetadata, updateIconMeta. keeps_tac. Qed.

Lemma keeps_sign url request account : keeps (sign url request account).
Proof. unfold sign, updateIconSign. keeps_tac. Qed.

Lemma keeps_didSign url request did name : keeps (didSign url request did name).
Proof. unfold didSign, updateIconDidSign. keeps_tac. Qed.

Lemma keeps_removeAuthorization url : keeps (removeAuthorization url).
Proof. unfold removeAuthorization, saveCurrentAuthList. keeps_tac. Qed.

Lemma keeps_accountsForget decodable address :
  keeps (accountsForget decodable address).
Proof. unfold accountsForget, forgetAccount. keeps_tac. Qed.

Lemma keeps_metadataApprove id : keeps (metadataApprove id).
Proof. unfold metadataApprove, saveMetadata, metaResolve. keeps_tac. Qed.

Lemma keeps_metadataReject id : keeps (metadataReject id).
Proof. unfold metadataReject, metaReject. keeps_tac. Qed.

Lemma keeps_signingApprovePassword expiry signWith id password savePass now :
  keeps (signingApprovePassword expiry signWith id password savePass now).
Proof.
  unfold signingApprovePassword, refreshAccountPasswordCache, decodePkcs8, lock,
    signReject, signResolve.
  keeps_tac.
Qed.

Lemma keeps_signingApproveSignature id signature :
  keeps (signingApproveSignature id signature).
Proof. unfold signingApproveSignature, signResolve. keeps_tac. Qed.

Lemma keeps_signingCancel id : keeps (signingCancel id).
Proof. unfold signingCancel, signReject. keeps_tac. Qed.

Lemma keeps_signingIsLocked id now : keeps (signingIsLocked id now).
Proof. unfold signingIsLocked, refreshAccountPasswordCache, lock. keeps_tac. Qed.

Lemma keeps_didsSignApprove signWith id password :
  keeps (didsSignApprove signWith id password).
Proof. unfold didsSignApprove, didSignResolve, didSignReject. keeps_tac. Qed.

Lemma keeps_didsSignCancel id : keeps (didsSignCancel id).
Proof. unfold didsSignCancel, didSignReject. keeps_tac. Qed.

#[local] Hint Resolve keeps_injectMetadata keeps_sign keeps_didSign
  keeps_removeAuthorization keeps_accountsForget keeps_metadataApprove
  keeps_metadataReject keeps_signingApprovePassword keeps_signingApproveSignature
  keeps_signingCancel keeps_signingIsLocked keeps_didsSignApprove
  keeps_didsSignCancel : keeps.

(** Every call but the four that resolve or enqueue authorize requests
    leaves the authorize table as it is. *)
Lemma keeps_exec_other expiry signWith decodable c :
  match c with
  | CallAuthorizeUrl _ _ | CallAuthReject _ _
  | CallHandle (AuthorizeApprove _ _ _) _
  | CallHandle (AuthorizeDeleteRequest _) _ => True
  | _ => keeps (exec expiry signWith decodable c)
  end.
Proof.
  destruct c as [| | | | |msg now| |]; try done;
    try (destruct msg; try done);
    cbn [exec handle]; unfold getAuthList, authorizeUpdate, setNotification;
    keeps_tac.
Qed.

(** ** The invariant of the authorize table *)

Lemma pendingOk_nil : pendingOk [].
Proof. split; [by intros kv ?%elem_of_nil|constructor]. Qed.

Lemma pendingOk_delete k o : pendingOk o → pendingOk (Obj.delete k o).
Proof.
  intros [Hurl Hnd]. split.
  - intros kv [Hin _]%ObjFacts.elem_of_delete. by apply Hurl.
  - clear Hurl. unfold Obj.delete, Obj.values in *.
    induction o as [|[k' r] o IH]; [done|].
    rewrite filter_cons. simpl in *. apply NoDup_cons in Hnd as [Hnotin Hnd].
    destruct (decide (k' ≠ k)); [|by apply IH].
    simpl. apply NoDup_cons. split; [|by apply IH].
    intros Hin. apply Hnotin.
    apply list_elem_of_fmap in Hin as (r' & -> & Hin).
    apply list_elem_of_fmap. exists r'. split; [done|].
    apply list_elem_of_fmap in Hin as (kv & -> & Hin).
    apply list_elem_of_fmap. exists kv. split; [done|].
    by apply list_elem_of_filter in Hin as [_ Hin].
Qed.

Lemma not_duplicate idStr (l : list AuthRequest) :
  existsb (sameIdStr idStr) l = false → idStr ∉ ar_idStr <$> l.
Proof.
  intros Hex Hin. apply list_elem_of_fmap in Hin as (r & -> & Hin).
  assert (existsb (sameIdStr (ar_idStr r)) l = true) as Htrue; [|congruence].
  apply existsb_exists. exists r. split; [by apply list_elem_of_In|].
  unfold sameIdStr. by apply bool_decide_eq_true.
Qed.

Lemma pendingOk_set k r o :
  pendingOk o →
  stripUrl (ar_url r) = Ok (ar_idStr r) →
  existsb (sameIdStr (ar_idStr r)) (Obj.values o) = false →
  pendingOk (Obj.set k r o).
Proof.
  intros [Hurl Hnd] Hr Hdup%not_duplicate. split.
  - intros kv [->|Hin]%ObjFacts.elem_of_set; [done|by apply Hurl].
  - clear Hurl Hr. unfold Obj.values in *.
    induction o as [|[k' r'] o IH]; simpl in *.
    + apply NoDup_singleton.
    + apply NoDup_cons in Hnd as [Hnotin Hnd].
      apply not_elem_of_cons in Hdup as [Hne Hdup].
      destruct (decide (k = k')); simpl.
      * apply NoDup_cons. by split.
      * apply NoDup_cons. split; [|by apply IH].
        intros Hin. apply list_elem_of_fmap in Hin as (x & Hx & Hin).
        apply list_elem_of_fmap in Hin as (kv & -> & Hin).
        apply ObjFacts.elem_of_set in Hin as [->|Hin]; simpl in *; [congruence|].
        apply Hnotin. rewrite Hx. apply list_elem_of_fmap. exists kv.2.
        split; [done|]. apply list_elem_of_fmap. by exists kv.
Qed.

Lemma authCompleteStep_requests id accounts dids s :
  authRequests (authCompleteStep id accounts dids s).2 = authRequests s
  ∨ authRequests (authCompleteStep id accounts dids s).2
    = Obj.delete id (authRequests s).
Proof.
  destruct (Obj.get id (authRequests s)) as [r|] eqn:Hget.
  - destruct (stripUrl (ar_url r)) as [key|e] eqn:Hurl.
    + destruct (authCompleteStep_eq id accounts dids s r key Hget Hurl)
        as (ws & cw & bt & ->). by right.
    + left. unfold authCompleteStep. munfold. by rewrite Hget, Hurl.
  - left. unfold authCompleteStep. munfold. by rewrite Hget.
Qed.

Lemma pendingOk_authCompleteStep id accounts dids s :
  pendingOk (authRequests s) →
  pendingOk (authRequests (authCompleteStep id accounts dids s).2).
Proof.
  intros H. destruct (authCompleteStep_requests id accounts dids s) as [->| ->];
    [done|by apply pendingOk_delete].
Qed.

Lemma pendingOk_bind_keeps {A B} (m : M A) (f : A → M B) s :
  pendingOk (authRequests (m s).2) → (∀ a, keeps (f a)) →
  pendingOk (authRequests ((m ≫= f) s).2).
Proof.
  intros Hm Hf. unfold mbind, M_bind.
  destruct (m s) as [[a|e] s']; simpl in *; [|done]. by rewrite Hf.
Qed.

Lemma pendingOk_authorizeUrl url request s :
  pendingOk (authRequests s) →
  pendingOk (authRequests (authorizeUrl url request s).2).
Proof.
  intros H. unfold authorizeUrl. munfold.
  destruct (stripUrl url) as [idStr|e] eqn:Hurl; [|done].
  destruct (existsb (sameIdStr idStr) (Obj.values (authRequests s))) eqn:Hdup;
    cbn; [done|].
  destruct (defined (lookupAuthUrl (propKey idStr) s)); cbn.
  { by destruct (hasAccounts _ _ || isAllowed _). }
  unfold getId, updateIconAuth. munfold. icon_step.
  match goal with |- context [popupOpen ?x] =>
    pose proof (keeps_popupOpen x) as Hp; destruct (popupOpen x) as [[[]|e] s']
  end; cbn in *; rewrite Hp; by apply pendingOk_set.
Qed.

(** Every state the service reaches satisfies the invariant. *)
Lemma reachable_pendingOk expiry signWith decodable s :
  reachable expiry signWith decodable s → pendingOk (authRequests s).
Proof.
  induction 1 as [env|s c Hs IH].
  - unfold construct. rewrite keeps_extractMetadata. apply pendingOk_nil.
  - pose proof (keeps_exec_other expiry signWith decodable c) as Hother.
    destruct c as [url request| | | |id e|msg now| |];
      try (by rewrite Hother).
    + simpl. apply pendingOk_bind_keeps; [|intros; apply keeps_ret].
      by apply pendingOk_authorizeUrl.
    + simpl. unfold authReject. apply pendingOk_bind_keeps.
      * by apply pendingOk_authCompleteStep.
      * intros. unfold settle. keeps_tac.
    + destruct msg; try (by rewrite Hother); simpl.
      * unfold authorizeApprove, authResolve. munfold.
        destruct (bool_decide _); simpl; [|done].
        match goal with |- context [authCompleteStep ?i ?a ?d s] =>
          pose proof (pendingOk_authCompleteStep i a d s IH) as Hc;
          destruct (authCompleteStep i a d s) as [[[]|e] s'] end; by simpl in *.
      * unfold deleteAuthRequest, updateIconAuth. munfold. icon_step. simpl.
        by apply pendingOk_delete.
Qed.

(** No request is enqueued for an origin that names a property of
    [Object.prototype], so completing a request assigns to a key that is
    the store's own or new. *)
Lemma ownOrigins_delete k o : ownOrigins o → ownOrigins (Obj.delete k o).
Proof. intros H kv [Hin _]%ObjFacts.elem_of_delete. by apply H. Qed.

Lemma ownOrigins_authCompleteStep id accounts dids s :
  ownOrigins (authRequests s) →
  ownOrigins (authRequests (authCompleteStep id accounts dids s).2).
Proof.
  intros H. destruct (authCompleteStep_requests id accounts dids s) as [->| ->];
    [done|by apply ownOrigins_delete].
Qed.

Lemma ownOrigins_authorizeUrl url request s :
  ownOrigins (authRequests s) →
  ownOrigins (authRequests (authorizeUrl url request s).2).
Proof.
  intros H. unfold authorizeUrl. munfold.
  destruct (stripUrl url) as [idStr|e] eqn:Hurl; [|done].
  destruct (existsb (sameIdStr idStr) (Obj.values (authRequests s))) eqn:Hdup;
    cbn; [done|].
  destruct (defined (lookupAuthUrl (propKey idStr) s)) eqn:Hdef; cbn.
  { by destruct (hasAccounts _ _ || isAllowed _). }
  assert (propKey idStr ∉ objectPrototypeNames) as Hown.
  { intros Hin. unfold lookupAuthUrl in Hdef.
    destruct (authUrls s !! propKey idStr); [done|].
    by rewrite bool_decide_eq_true_2 in Hdef. }
  unfold getId, updateIconAuth. munfold. icon_step.
  match goal with |- context [popupOpen ?x] =>
    pose proof (keeps_popupOpen x) as Hp; destruct (popupOpen x) as [[[]|e] s']
  end; cbn in *; rewrite Hp;
    (intros kv [->|Hin]%ObjFacts.elem_of_set; [done|by apply H]).
Qed.

Lemma reachable_ownOrigins expiry signWith decodable s :
  reachable expiry signWith decodable s → ownOrigins (authRequests s).
Proof.
  induction 1 as [env|s c Hs IH].
  - unfold construct. rewrite keeps_extractMetadata. by intros kv ?%elem_of_nil.
  - pose proof (keeps_exec_other expiry signWith decodable c) as Hother.
    destruct c as [url request| | | |id e|msg now| |];
      try (by rewrite Hother).
    + simpl. unfold mbind, M_bind.
      pose proof (ownOrigins_authorizeUrl url request s IH) as Hc.
      by destruct (authorizeUrl url request s) as [[a|e] s'].
    + simpl. unfold authReject, mbind, M_bind.
      pose proof (ownOrigins_authCompleteStep id [] [] s IH) as Hc.
      by destruct (authCompleteStep id [] [] s) as [[[]|e'] s'].
    + destruct msg; try (by rewrite Hother); simpl.
      * unfold authorizeApprove, authResolve. munfold.
        destruct (bool_decide _); simpl; [|done].
        match goal with |- context [authCompleteStep ?i ?a ?d s] =>
          pose proof (ownOrigins_authCompleteStep i a d s IH) as Hc;
          destruct (authCompleteStep i a d s) as [[[]|e] s'] end; by simpl in *.
      * unfold deleteAuthRequest, updateIconAuth. munfold. icon_step. simpl.
        by apply ownOrigins_delete.
Qed.

(** ** C4 and C5: authorizeUrl on a known origin and on a pending origin *)

Lemma existsb_sameIdStr idStr (l : list AuthRequest) :
  existsb (sameIdStr idStr) l = true ↔ ∃ r, r ∈ l ∧ ar_idStr r = idStr.
Proof.
  rewrite existsb_exists. split; intros (r & Hin & Hr); exists r.
  - split; [by apply list_elem_of_In|]. by apply bool_decide_eq_true in Hr.
  - split; [by apply list_elem_of_In|]. by apply bool_decide_eq_true.
Qed.

Lemma lookup_entry key info s :
  authUrls s !! key = Some info → lookupAuthUrl key s = Entry info.
Proof. intros H. unfold lookupAuthUrl. by rewrite H. Qed.

Lemma lookup_undefined key s :
  authUrls s !! key = None → inherits key s = false →
  lookupAuthUrl key s = Undefined.
Proof.
  intros Hnone Hinh. unfold lookupAuthUrl, inherits in *. rewrite Hnone.
  apply orb_false_iff in Hinh as [-> Hinh].
  destruct (onPrototype s) as [[? dids]|]; [|done]. by rewrite Hinh.
Qed.

Lemma entry_passes info s :
  is_Some (ai_authorizedAccounts info) ∨ ai_isAllowed info = Some true →
  hasAccounts (Entry info) s || isAllowed (Entry info) = true.
Proof.
  unfold hasAccounts, entryAccounts, isAllowed.
  intros [[l ->]| ->]; [|by rewrite orb_true_r].
  by rewrite bool_decide_eq_true_2.
Qed.

Lemma authorizeUrl_short_circuit url request idStr info s :
  stripUrl url = Ok idStr →
  authUrls s !! propKey idStr = Some info →
  is_Some (ai_authorizedAccounts info) ∨ ai_isAllowed info = Some true →
  (∀ r, r ∈ Obj.values (authRequests s) → ar_idStr r ≠ idStr) →
  authorizeUrl url request s = (Ok (Resolved notAskedAgain), s).
Proof.
  intros Hurl Hentry Hok Hpending. unfold authorizeUrl. munfold. rewrite Hurl.
  destruct (existsb (sameIdStr idStr) (Obj.values (authRequests s))) eqn:Hdup.
  - apply existsb_sameIdStr in Hdup as (r & Hin & Hr). by destruct (Hpending r Hin).
  - cbn. rewrite (lookup_entry _ _ _ Hentry). cbn.
    by rewrite (entry_passes info s Hok).
Qed.

(** The entry of a version before 0.44.1 that was not allowed: nothing
    is returned, the call fails with the not-allowed error. *)
Lemma authorizeUrl_entry_not_allowed url request idStr info s :
  stripUrl url = Ok idStr →
  authUrls s !! propKey idStr = Some info →
  ai_authorizedAccounts info = None →
  ai_isAllowed info ≠ Some true →
  onPrototype s = None →
  (∀ r, r ∈ Obj.values (authRequests s) → ar_idStr r ≠ idStr) →
  authorizeUrl url request s = (Throw (NotAllowed url), s).
Proof.
  intros Hurl Hentry Hnone Hallowed Hproto Hpending.
  unfold authorizeUrl. munfold. rewrite Hurl.
  destruct (existsb (sameIdStr idStr) (Obj.values (authRequests s))) eqn:Hdup.
  - apply existsb_sameIdStr in Hdup as (r & Hin & Hr). by destruct (Hpending r Hin).
  - cbn. rewrite (lookup_entry _ _ _ Hentry). cbn.
    unfold hasAccounts, entryAccounts, isAllowed. rewrite Hnone, Hproto. cbn.
    by destruct (ai_isAllowed info) as [[]|].
Qed.


(** C5. When an authorize request is pending for the normalized origin of
    a url, [authorizeUrl] on that url fails with the duplicate-request
    error and leaves the whole state, so the table and the pending
    request, as it was. *)
Theorem authorizeUrl_pending_origin url request idStr r s :
  stripUrl url = Ok idStr →
  r ∈ Obj.values (authRequests s) →
  ar_idStr r = idStr →
  authorizeUrl url request s = (Throw (PendingAuthorization url), s)
  ∧ classify (PendingAuthorization url) = Some DuplicateRequest.
Proof.
  intros Hurl Hin Hr. split; [|done]. unfold authorizeUrl. munfold. rewrite Hurl.
  assert (existsb (sameIdStr idStr) (Obj.values (authRequests s)) = true) as ->;
    [|done].
  apply existsb_sameIdStr. by exists r.
Qed.

(** ** C6 and C9: what resolving an authorize request writes *)

Lemma deleted_others_differ id r (o : JsObject AuthRequest) :
  NoDup (ar_idStr <$> Obj.values o) →
  Obj.get id o = Some r →
  ∀ r', r' ∈ Obj.values (Obj.delete id o) → ar_idStr r' ≠ ar_idStr r.
Proof.
  unfold Obj.values, Obj.delete.
  induction o as [|[k r0] o IH]; [done|].
  intros Hnd Hget r' Hin. rewrite filter_cons in Hin.
  cbn in Hnd, Hget, Hin. apply NoDup_cons in Hnd as [Hnotin Hnd].
  assert (∀ x, x ∈ (filter (λ kv : string * AuthRequest, kv.1 ≠ id) o).*2 →
               ar_idStr x ∈ ar_idStr <$> o.*2) as Hsub.
  { intros x (kv & -> & [_ Hkv]%list_elem_of_filter)%list_elem_of_fmap.
    apply list_elem_of_fmap. exists kv.2. split; [done|].
    apply list_elem_of_fmap. by exists kv. }
  destruct (decide (id = k)) as [->|Hne].
  - injection Hget as ->. rewrite decide_False in Hin by (by intros ?).
    intros Heq. apply Hnotin. rewrite <- Heq. by apply Hsub.
  - rewrite decide_True in Hin by done. cbn in Hin.
    apply elem_of_cons in Hin as [->|Hin]; [|by apply IH].
    intros Heq. apply Hnotin. rewrite Heq.
    apply list_elem_of_fmap. exists r. split; [done|].
    apply list_elem_of_fmap. exists (id, r). split; [done|].
    by apply ObjFacts.get_Some_elem_of.
Qed.

Lemma authCompleteStep_recorded id accounts dids r s :
  pendingOk (authRequests s) →
  Obj.get id (authRequests s) = Some r →
  ∃ ws cw bt,
    authCompleteStep id accounts dids s
    = (Ok tt, set_windows ws (set_chromeWindows cw (set_badgeText bt
         (authCompleted id accounts dids r (ar_idStr r) s))))
    ∧ ∀ url request log,
        stripUrl url = Ok (ar_idStr r) →
        authorizeUrl url request
          (set_settled log (set_windows ws (set_chromeWindows cw (set_badgeText bt
             (authCompleted id accounts dids r (ar_idStr r) s)))))
        = (Ok (Resolved notAskedAgain),
           set_settled log (set_windows ws (set_chromeWindows cw (set_badgeText bt
             (authCompleted id accounts dids r (ar_idStr r) s))))).
Proof.
  intros [Hurls Hnd] Hget.
  pose proof (Hurls _ (ObjFacts.get_Some_elem_of _ _ _ Hget)) as Hurl. cbn in Hurl.
  destruct (authCompleteStep_eq id accounts dids s r _ Hget Hurl)
    as (ws & cw & bt & E).
  exists ws, cw, bt. split; [done|]. intros url request log Hstrip.
  eapply authorizeUrl_short_circuit; [done| | |].
  - cbn. apply lookup_insert_eq.
  - left. by eexists.
  - cbn. by apply deleted_others_differ.
Qed.

(** C6. In every reachable state, both the approve path and the reject
    path of a pending authorize request write an entry for the request's
    normalized origin into the store and the store into durable storage;
    on the reject path the entry has empty account and DID lists and
    usage counter 0; after either path a later [authorizeUrl] for that
    origin returns the short-circuit response and enqueues nothing. *)
Theorem authorize_resolution_records_entry expiry signWith decodable id r s :
  reachable expiry signWith decodable s →
  Obj.get id (authRequests s) = Some r →
  (∀ accounts dids,
     (authorizeApprove accounts dids id s).1 = Ok true
     ∧ recorded id r accounts dids (authorizeApprove accounts dids id s).2)
  ∧ (∀ e,
       (authReject id e s).1 = Ok tt
       ∧ recorded id r [] [] (authReject id e s).2).
Proof.
  intros Hreach Hget. apply reachable_pendingOk in Hreach. split.
  - intros accounts dids.
    destruct (authCompleteStep_recorded id accounts dids r s Hreach Hget)
      as (ws & cw & bt & E & Hlater).
    unfold authorizeApprove, authResolve. munfold. rewrite Hget. cbn.
    rewrite E. cbn. split; [done|]. repeat split.
    + eexists. split; [apply lookup_insert_eq|done].
    + apply ObjFacts.get_delete_eq.
    + intros url request. apply Hlater.
  - intros e.
    destruct (authCompleteStep_recorded id [] [] r s Hreach Hget)
      as (ws & cw & bt & E & Hlater).
    unfold authReject. munfold. rewrite E. cbn. split; [done|]. repeat split.
    + eexists. split; [apply lookup_insert_eq|done].
    + apply ObjFacts.get_delete_eq.
    + intros url request. apply Hlater.
Qed.

(** C9. In every reachable state, rejecting a pending authorize request
    through its reject continuation succeeds and leaves the default
    account selection, in memory and in durable storage, empty, whatever
    it was before. *)
Theorem authorize_rejection_clears_default_selection
    expiry signWith decodable id r e s :
  reachable expiry signWith decodable s →
  Obj.get id (authRequests s) = Some r →
  (authReject id e s).1 = Ok tt
  ∧ defaultAuthAccountSelection (authReject id e s).2 = []
  ∧ storedDefaultAuthAccounts (authReject id e s).2 = Some [].
Proof.
  intros Hreach Hget. apply reachable_pendingOk in Hreach.
  destruct (authCompleteStep_recorded id [] [] r s Hreach Hget)
    as (ws & cw & bt & E & _).
  unfold authReject. munfold. by rewrite E.
Qed.

(** ** C10: updateAuthorizedAccounts on an origin without entry *)

Lemma set_authUrls_same s : set_authUrls (authUrls s) s = s.
Proof. by destruct s. Qed.

Lemma applyDiff_lookup_is_Some diff urls url :
  is_Some (applyDiff diff urls !! url) ↔ is_Some (urls !! url).
Proof.
  revert urls. induction diff as [|d diff IH]; intros urls; [done|].
  unfold applyDiff in *. cbn [foldl]. rewrite IH. apply lookup_alter_is_Some.
Qed.

Lemma alter_as_insert {A} (f : A → A) (m : gmap string A) i x :
  m !! i = Some x → alter f i m = <[i := f x]> m.
Proof.
  intros Hi. apply map_eq. intros k. rewrite lookup_alter, lookup_insert.
  destruct (decide (i = k)) as [->|]; [by rewrite Hi|done].
Qed.

Lemma forEach_updateAuthorizedEntry diff s :
  (∀ d, d ∈ diff → is_Some (authUrls s !! d.1.1)) →
  forEach updateAuthorizedEntry diff s
  = (Ok tt, set_authUrls (applyDiff diff (authUrls s)) s).
Proof.
  revert s. induction diff as [|[[url accounts] dids] diff IH]; intros s Hin.
  - cbn. by rewrite set_authUrls_same.
  - cbn [forEach]. destruct (Hin (url, accounts, dids)) as [info Hinfo];
      [apply list_elem_of_here|]. cbn in Hinfo.
    erewrite bind_Ok.
    2:{ unfold updateAuthorizedEntry. munfold.
        by rewrite (lookup_entry _ _ _ Hinfo). }
    rewrite IH.
    + unfold applyDiff. cbn.
      by rewrite (alter_as_insert _ _ _ _ Hinfo).
    + intros d Hd. cbn. rewrite lookup_insert_is_Some'. right.
      apply Hin. by apply list_elem_of_further.
Qed.


(** An origin without entry that names a property of [Object.prototype]:
    the assignments land on the inherited object, nothing throws, the
    store keeps its entries and is written to durable storage. *)
Lemma updateAuthorizedAccounts_inherited_name url accounts dids s :
  authUrls s !! url = None →
  url ∈ objectPrototypeNames →
  (updateAuthorizedAccounts [(url, accounts, dids)] s).1 = Ok tt
  ∧ authUrls (updateAuthorizedAccounts [(url, accounts, dids)] s).2 = authUrls s
  ∧ storedAuthUrls (updateAuthorizedAccounts [(url, accounts, dids)] s).2
    = Some (authUrls s)
  ∧ ∃ written, inheritedProps (updateAuthorizedAccounts [(url, accounts, dids)] s).2
               !! url = Some (accounts, written).
Proof.
  intros Hnone Hin.
  unfold updateAuthorizedAccounts, saveCurrentAuthList. cbn [forEach].
  unfold updateAuthorizedEntry, lookupAuthUrl. munfold.
  rewrite Hnone, bool_decide_eq_true_2 by done. cbn.
  repeat (split; [done|]). eexists. apply lookup_insert_eq.
Qed.

(** ** C8: accountsForget *)

Lemma without_absent address l : address ∉ l → without address l = l.
Proof.
  unfold without. induction l as [|a l IH]; [done|].
  intros [Hne Hl]%not_elem_of_cons. rewrite filter_cons.
  rewrite decide_True by done. by rewrite IH.
Qed.

Lemma not_elem_of_without address l : address ∉ without address l.
Proof. unfold without. rewrite list_elem_of_filter. by intros [? _]. Qed.

Lemma without_idemp address l :
  without address (without address l) = without address l.
Proof. apply without_absent, not_elem_of_without. Qed.

Lemma scrub_absent address info l :
  ai_authorizedAccounts info = Some l → address ∉ l → scrub address info = info.
Proof.
  intros Hl H. unfold scrub, applyEntry. rewrite Hl, without_absent by done.
  destruct info. cbn in *. by rewrite Hl.
Qed.

Lemma scrub_idemp address info :
  scrub address (scrub address info) = scrub address info.
Proof.
  destruct (ai_authorizedAccounts info) as [l|] eqn:Hl.
  - assert (scrub address info = applyEntry (without address l) None info) as ->
      by (unfold scrub; by rewrite Hl).
    eapply scrub_absent; [done|]. apply not_elem_of_without.
  - assert (scrub address info = info) as -> by (unfold scrub; by rewrite Hl).
    unfold scrub. by rewrite Hl.
Qed.

Lemma applyDiff_lookup_other (diff : AuthorizedAccountsDiff) urls k :
  k ∉ diff.*1.*1 → applyDiff diff urls !! k = urls !! k.
Proof.
  revert urls. induction diff as [|d diff IH]; intros urls; [done|].
  intros [Hne Hk]%not_elem_of_cons. unfold applyDiff in *. cbn [foldl].
  rewrite IH by done. by rewrite lookup_alter_ne.
Qed.

Lemma applyDiff_lookup_entry (diff : AuthorizedAccountsDiff) urls k accounts dids :
  NoDup diff.*1.*1 →
  (k, accounts, dids) ∈ diff →
  applyDiff diff urls !! k = applyEntry accounts dids <$> urls !! k.
Proof.
  revert urls. induction diff as [|d diff IH]; intros urls Hnd Hin.
  { by apply elem_of_nil in Hin. }
  cbn in Hnd. apply NoDup_cons in Hnd as [Hnotin Hnd].
  unfold applyDiff in *. cbn [foldl].
  apply elem_of_cons in Hin as [<-|Hin].
  - cbn in *. fold (applyDiff diff (alter (applyEntry accounts dids) k urls)).
    rewrite applyDiff_lookup_other by done. by rewrite lookup_alter_eq.
  - rewrite IH by done. rewrite lookup_alter_ne; [done|].
    intros Heq. apply Hnotin. rewrite Heq.
    apply list_elem_of_fmap. exists (k, accounts). split; [done|].
    apply list_elem_of_fmap. by exists (k, accounts, dids).
Qed.

Lemma elem_of_forgetEntries address urls d :
  d ∈ forgetEntries address urls ↔
  ∃ info l, (d.1.1, info) ∈ urls ∧ ai_authorizedAccounts info = Some l
            ∧ address ∈ l ∧ d = (d.1.1, without address l, None).
Proof.
  unfold forgetEntries. rewrite list_elem_of_omap. split.
  - intros ([k info] & Hin & Hd). cbn in Hd.
    destruct (ai_authorizedAccounts info) as [l|] eqn:Hl; [|done].
    destruct (bool_decide (address ∈ l)) eqn:Hmem; [|done].
    apply bool_decide_eq_true in Hmem. injection Hd as <-. by exists info, l.
  - intros (info & l & Hin & Hl & Hmem & Hd). exists (d.1.1, info). split; [done|].
    cbn. rewrite Hl, bool_decide_eq_true_2 by done. by f_equal.
Qed.

Lemma forgetEntries_NoDup address urls :
  NoDup urls.*1 → NoDup (forgetEntries address urls).*1.*1.
Proof.
  induction urls as [|[k info] urls IH]; [constructor|].
  cbn. intros [Hnotin Hnd]%NoDup_cons.
  destruct (ai_authorizedAccounts info) as [l|]; [|by apply IH].
  destruct (bool_decide (address ∈ l)); [|by apply IH].
  cbn. apply NoDup_cons. split; [|by apply IH].
  intros (ka & Hk & (d & -> & Hd)%list_elem_of_fmap)%list_elem_of_fmap.
  apply elem_of_forgetEntries in Hd as (info' & l' & Hin & _).
  apply Hnotin. apply list_elem_of_fmap. exists (d.1.1, info'). by split.
Qed.

Lemma applyDiff_forgetEntries address (urls : gmap string AuthUrlInfo) :
  applyDiff (forgetEntries address (map_to_list urls)) urls = scrub address <$> urls.
Proof.
  apply map_eq. intros k. rewrite lookup_fmap.
  pose proof (forgetEntries_NoDup address _ (NoDup_fst_map_to_list urls)) as Hnd.
  assert (∀ info, urls !! k = Some info →
            (∀ l, ai_authorizedAccounts info = Some l → address ∉ l) →
            applyDiff (forgetEntries address (map_to_list urls)) urls !! k
            = Some info) as Hother.
  { intros info Hk Hmem. rewrite applyDiff_lookup_other; [done|].
    intros (ka & Hka & (d & -> & Hd)%list_elem_of_fmap)%list_elem_of_fmap.
    apply elem_of_forgetEntries in Hd as (info' & l' & Hin & Hl' & Hmem' & _).
    apply elem_of_map_to_list in Hin. cbn in Hka. rewrite <- Hka in Hin.
    assert (info' = info) as -> by congruence. by destruct (Hmem l'). }
  destruct (urls !! k) as [info|] eqn:Hk.
  - destruct (ai_authorizedAccounts info) as [l|] eqn:Hl.
    + destruct (decide (address ∈ l)) as [Hmem|Hmem].
      * rewrite (applyDiff_lookup_entry _ _ k (without address l) None Hnd).
        -- rewrite Hk. cbn. unfold scrub. by rewrite Hl.
        -- apply elem_of_forgetEntries. exists info, l. cbn.
           split; [by apply elem_of_map_to_list|done].
      * rewrite (Hother info) by (intros; congruence).
        cbn. by rewrite (scrub_absent _ _ l).
    + rewrite (Hother info) by (intros; congruence).
      cbn. unfold scrub. by rewrite Hl.
  - cbn. apply eq_None_not_Some. rewrite applyDiff_lookup_is_Some, Hk.
    by intros [? ?].
Qed.

(** With an account list in every entry the first loop prepares the
    diff; an entry without one, with nothing to inherit, ends it. *)
Lemma forgetDiff_listed address inherited urls :
  (∀ e, e ∈ urls → is_Some (ai_authorizedAccounts e.2)) →
  forgetDiff address inherited urls = Ok (forgetEntries address urls).
Proof.
  induction urls as [|[url info] urls IH]; intros Hall; [done|].
  cbn. destruct (Hall (url, info)) as [l Hl]; [apply list_elem_of_here|].
  cbn in Hl. rewrite Hl, IH.
  - by destruct (bool_decide (address ∈ l)).
  - intros e He. by apply Hall, list_elem_of_further.
Qed.

Lemma forgetDiff_unlisted address urls url info :
  (url, info) ∈ urls → ai_authorizedAccounts info = None →
  forgetDiff address None urls = Throw TypeError.
Proof.
  intros Hin Hnone. induction urls as [|[k i] urls IH]; [by apply elem_of_nil in Hin|].
  cbn. apply elem_of_cons in Hin as [[= <- <-]|Hin].
  - by rewrite Hnone.
  - destruct (ai_authorizedAccounts i); [|done]. by rewrite IH.
Qed.

Arguments forgetDiff : simpl never.
Arguments forgetEntries : simpl never.

Arguments applyDiff : simpl never.

Lemma accountsForget_eq decodable address s :
  listed (authUrls s) →
  accountsForget decodable address s
  = if decodable address then (Ok true, forgotten address s)
    else (Throw (InvalidAddress address), scrubbed address s).
Proof.
  intros Hlisted.
  unfold accountsForget, updateAuthorizedAccounts, saveCurrentAuthList,
    updateDefaultAuthAccounts, saveDefaultAuthAccounts, forgetAccount.
  munfold. rewrite forgetDiff_listed.
  2:{ intros [url info] Hin%elem_of_map_to_list. by apply (Hlisted url). }
  rewrite forEach_updateAuthorizedEntry.
  - cbn. rewrite applyDiff_forgetEntries. by destruct (decodable address).
  - intros d (info & l & Hin & _)%elem_of_forgetEntries.
    apply elem_of_map_to_list in Hin. by rewrite Hin.
Qed.

(** An entry without account list, with nothing written on the
    prototype: the command throws before it changes anything. *)
Lemma accountsForget_unlisted decodable address url info s :
  authUrls s !! url = Some info →
  ai_authorizedAccounts info = None →
  onPrototype s = None →
  accountsForget decodable address s = (Throw TypeError, s).
Proof.
  intros Hentry Hnone Hproto. unfold accountsForget. munfold.
  rewrite Hproto. cbn.
  rewrite (forgetDiff_unlisted address _ url info); [done| |done].
  by apply elem_of_map_to_list.
Qed.

Lemma scrub_fmap_idemp address (urls : gmap string AuthUrlInfo) :
  scrub address <$> (scrub address <$> urls) = scrub address <$> urls.
Proof.
  apply map_eq. intros k. rewrite !lookup_fmap.
  destruct (urls !! k); [|done]. cbn. by rewrite scrub_idemp.
Qed.

Lemma scrubbed_idemp address s :
  scrubbed address (scrubbed address s) = scrubbed address s.
Proof.
  unfold scrubbed. cbn [authUrls defaultAuthAccountSelection
    set_storedDefaultAuthAccounts set_defaultAuthAccountSelection
    set_storedAuthUrls set_authUrls].
  by rewrite scrub_fmap_idemp, without_idemp.
Qed.

Lemma forgotten_idemp address s :
  forgotten address (forgotten address s) = forgotten address s.
Proof.
  unfold forgotten, scrubbed. cbn [authUrls defaultAuthAccountSelection pairs
    set_pairs set_storedDefaultAuthAccounts set_defaultAuthAccountSelection
    set_storedAuthUrls set_authUrls].
  by rewrite scrub_fmap_idemp, without_idemp, delete_delete_eq.
Qed.

Lemma listed_scrub address urls : listed urls → listed (scrub address <$> urls).
Proof.
  intros Hlisted url info. rewrite lookup_fmap.
  destruct (urls !! url) as [info0|] eqn:Hk; [|done]. intros [= <-].
  destruct (Hlisted url info0 Hk) as [l Hl]. unfold scrub. by rewrite Hl.
Qed.


(** ** C2 and C3: approval commands that fail *)

(** C2, as the code behaves. When the pair of a pending sign request is
    locked and the password is neither empty nor the pair's passphrase,
    [signingApprovePassword] throws the keyring's decoding error to its
    caller: the request stays in the sign table and neither continuation
    of the request is called, so the request is not rejected. *)
Theorem signingApprovePassword_wrong_password
    expiry signWith id password savePass now q keyPair s :
  Obj.get id (signRequests s) = Some q →
  pairs s !! sr_account q = Some keyPair →
  pair_isLocked keyPair = true →
  password ≠ "" →
  password ≠ pair_passphrase keyPair →
  (signingApprovePassword expiry signWith id password savePass now s).1
  = Throw UnableToDecode
  ∧ signRequests (signingApprovePassword expiry signWith id password savePass now s).2
    = signRequests s
  ∧ settled (signingApprovePassword expiry signWith id password savePass now s).2
    = settled s.
Proof.
  intros Hget Hpair Hlocked Hempty Hwrong.
  unfold signingApprovePassword, refreshAccountPasswordCache, decodePkcs8, lock,
    isLocked.
  munfold. rewrite Hget. cbn. rewrite Hpair. cbn.
  destruct (bool_decide _) eqn:Hexpired; cbn;
    repeat first
      [ rewrite lookup_alter_eq | rewrite Hpair | rewrite Hlocked
      | rewrite (bool_decide_eq_false_2 (password = "")) by done
      | rewrite decide_False by done
      | progress cbn ];
    done.
Qed.

(** C3, as the code behaves. When the DID of a pending DID-sign request
    has no key in the DID store, [didsSignApprove] fails with the
    DID-not-found error and changes nothing: the request stays in the
    DID-sign table and is not rejected. *)
Theorem didsSignApprove_did_not_found signWith id password q s :
  Obj.get id (didSignRequests s) = Some q →
  didsStore s !! ("did:" +:+ dr_did q) = None →
  didsSignApprove signWith id password s = (Throw DidNotFoundError, s)
  ∧ classify DidNotFoundError = Some DidNotFound
  ∧ Obj.get id (didSignRequests s) = Some q.
Proof.
  intros Hget Hdid. unfold didsSignApprove. munfold.
  by rewrite Hget, Hdid.
Qed.

(** What the sibling branches do: a wrong DID password and an empty
    account password reject the pending request, which removes it. *)
Lemma didsSignApprove_wrong_password signWith id password q didJson s :
  Obj.get id (didSignRequests s) = Some q →
  didsStore s !! ("did:" +:+ dr_did q) = Some didJson →
  password ≠ did_passphrase didJson →
  (didsSignApprove signWith id password s).1 = Ok false
  ∧ Obj.get id (didSignRequests (didsSignApprove signWith id password s).2) = None
  ∧ settled (didsSignApprove signWith id password s).2
    = (settled s ++ [(id, Rejected WrongDidPassword)])%list.
Proof.
  intros Hget Hdid Hwrong. unfold didsSignApprove, didSignReject. munfold.
  rewrite Hget, Hdid. rewrite decide_False by done.
  destruct (didSignCompleteStep_eq id s) as (ws & cw & bt & E).
  munfold. rewrite E. cbn. by rewrite ObjFacts.get_delete_eq.
Qed.

Lemma signingApprovePassword_empty_password
    expiry signWith id savePass now q keyPair s :
  Obj.get id (signRequests s) = Some q →
  pairs s !! sr_account q = Some keyPair →
  pair_isLocked keyPair = true →
  pair_passphrase keyPair ≠ "" →
  (signingApprovePassword expiry signWith id "" savePass now s).1
  = Throw UnableToDecode
  ∧ Obj.get id
      (signRequests (signingApprovePassword expiry signWith id "" savePass now s).2)
    = None
  ∧ settled (signingApprovePassword expiry signWith id "" savePass now s).2
    = (settled s ++ [(id, Rejected PasswordNeeded)])%list.
Proof.
  intros Hget Hpair Hlocked Hpass.
  unfold signingApprovePassword, refreshAccountPasswordCache, decodePkcs8, lock,
    isLocked, signReject.
  munfold. rewrite Hget. cbn. rewrite Hpair. cbn.
  destruct (bool_decide _) eqn:Hexpired; cbn;
    repeat first
      [ rewrite lookup_alter_eq | rewrite Hpair | rewrite Hlocked
      | rewrite (bool_decide_eq_true_2 ("" = "")) by done
      | progress cbn ].
  all: match goal with |- context [signCompleteStep ?i ?x] =>
         destruct (signCompleteStep_eq i x) as (ws & cw & bt & E); rewrite E
       end; cbn;
    repeat first
      [ rewrite lookup_alter_eq | rewrite Hpair | rewrite Hlocked
      | rewrite decide_False by done
      | progress cbn ];
    (split; [done|split; [apply ObjFacts.get_delete_eq|done]]).
Qed.

(** ** C7: the metadata reconciliation at startup *)

(** Two stored definitions of one family, the better one iterated
    first: nothing is scheduled for removal.  Iterated in the other
    order, the superseded definition is. *)
Lemma extractPlan_better_first known name hashes k0 d0 k1 d1 :
  knownEntry known (genesisHash d0) = Some (name, hashes) →
  knownEntry known (genesisHash d1) = Some (name, hashes) →
  (indexOf (genesisHash d0) hashes ≤ indexOf (genesisHash d1) hashes)%Z →
  (extractPlan known [(k0, d0); (k1, d1)]).2 = [].
Proof.
  intros H0 H1 Hle. unfold extractPlan, Obj.entries. cbn [foldl].
  unfold extractStep at 2. rewrite H0. cbn.
  unfold extractStep. rewrite H1. cbn. rewrite decide_True by done. cbn.
  by rewrite bool_decide_eq_false_2 by lia.
Qed.

Lemma extractPlan_better_last known name hashes k0 d0 k1 d1 :
  knownEntry known (genesisHash d0) = Some (name, hashes) →
  knownEntry known (genesisHash d1) = Some (name, hashes) →
  (indexOf (genesisHash d0) hashes < indexOf (genesisHash d1) hashes)%Z →
  (extractPlan known [(k1, d1); (k0, d0)]).2 = [k1].
Proof.
  intros H0 H1 Hlt. unfold extractPlan, Obj.entries. cbn [foldl].
  unfold extractStep at 2. rewrite H1. cbn.
  unfold extractStep. rewrite H0. cbn. rewrite decide_True by done. cbn.
  by rewrite bool_decide_eq_true_2 by lia.
Qed.

(** C7, as the code behaves. With both definitions of one family in the
    store, the startup pass removes the superseded one only when it is
    iterated before the newer one; iterated after it, the superseded
    definition stays in the store.  In both orders only the newer
    definition is added to the runtime registry. *)
Theorem extractMetadata_keeps_superseded_entry :
  extractPlan sampleGenesis [(newHash, newDef); (oldHash, oldDef)]
  = ([("kusama", {| de_def := newDef; de_index := 0; de_key := newHash |})], [])
  ∧ metaStore (construct (startupWith [(newHash, newDef); (oldHash, oldDef)]))
    = [(newHash, newDef); (oldHash, oldDef)]
  ∧ metaStore (construct (startupWith [(oldHash, oldDef); (newHash, newDef)]))
    = [(newHash, newDef)]
  ∧ map_to_list
      (definitions (construct (startupWith [(newHash, newDef); (oldHash, oldDef)])))
    = [(newHash, newDef)]
  ∧ map_to_list
      (definitions (construct (startupWith [(oldHash, oldDef); (newHash, newDef)])))
    = [(newHash, newDef)].
Proof. by vm_compute. Qed.

(** ** Concrete runs *)

Lemma run_reachable expiry signWith decodable cs s :
  reachable expiry signWith decodable s →
  reachable expiry signWith decodable (run expiry signWith decodable cs s).
Proof.
  revert s. induction cs as [|c cs IH]; intros s Hs; [done|].
  cbn. apply IH. by constructor.
Qed.

Lemma started_reachable cs :
  reachable sampleExpiry sampleSign sampleDecodable
    (run sampleExpiry sampleSign sampleDecodable cs started).
Proof. apply run_reachable. constructor. Qed.


(** The other way C4 fails as stated: the store a version before 0.44.1
    wrote has an entry for the origin, without account list and not
    allowed, and [authorizeUrl] fails with the not-allowed error. *)
Lemma denied_origin_is_not_answered :
  reachable sampleExpiry sampleSign sampleDecodable olderStarted
  ∧ stripUrl "https://denied.example/login" = Ok (Some "denied.example")
  ∧ authUrls olderStarted !! propKey (Some "denied.example") = Some deniedEntry
  ∧ authRequests olderStarted = []
  ∧ authorizeUrl "https://denied.example/login" "page" olderStarted
    = (Throw (NotAllowed "https://denied.example/login"), olderStarted).
Proof.
  split; [constructor|]. split; [done|]. split; [by vm_compute|].
  split; [by vm_compute|].
  apply (authorizeUrl_entry_not_allowed _ _ (Some "denied.example")
           deniedEntry); try by vm_compute.
  intros r Hr. vm_compute in Hr. inversion Hr.
Qed.

(** C8, as stated, fails: with an entry without account list in the
    store, [accountsForget] throws while it prepares the diff; the
    address stays in the entry of the dapp and in the default
    selection. *)
Lemma entry_without_list_stops_accountsForget :
  reachable sampleExpiry sampleSign sampleDecodable olderStarted
  ∧ authUrls olderStarted !! "old.example" = Some allowedEntry
  ∧ ai_authorizedAccounts allowedEntry = None
  ∧ authUrls olderStarted !! "dapp.example" = Some dappEntry
  ∧ "5Alice" ∈ default [] (ai_authorizedAccounts dappEntry)
  ∧ "5Alice" ∈ defaultAuthAccountSelection olderStarted
  ∧ accountsForget sampleDecodable "5Alice" olderStarted
    = (Throw TypeError, olderStarted)
  ∧ handle sampleExpiry sampleSign sampleDecodable (AccountsForget "5Alice") 0
      olderStarted
    = (Throw TypeError, olderStarted).
Proof.
  assert (accountsForget sampleDecodable "5Alice" olderStarted
          = (Throw TypeError, olderStarted)) as Hforget.
  { apply (accountsForget_unlisted _ _ "old.example" allowedEntry); by vm_compute. }
  split; [constructor|]. split; [by vm_compute|]. split; [done|].
  split; [by vm_compute|]. split; [apply list_elem_of_here|].
  split; [vm_compute; apply list_elem_of_here|]. split; [done|].
  cbn [handle]. unfold fmap, M_fmap. by rewrite (bind_Throw _ _ _ _ _ Hforget).
Qed.

Lemma second_resolution_fails_NotFound_witness :
  (resolveWith "request.1" (SignRejected CancelledError) signQueued).1 = Ok tt
  ∧ resolutionCommand "request.1" Sign (SigningCancel "request.1")
  ∧ peek Sign "request.1"
      (resolveWith "request.1" (SignRejected CancelledError) signQueued).2 = false
  ∧ ∃ e, handle sampleExpiry sampleSign sampleDecodable (SigningCancel "request.1") 0
           (resolveWith "request.1" (SignRejected CancelledError) signQueued).2
         = (Throw e, (resolveWith "request.1" (SignRejected CancelledError) signQueued).2)
         ∧ classify e = Some NotFound.
Proof.
  split; [by vm_compute|]. split; [constructor|].
  apply (second_resolution_fails_NotFound sampleExpiry sampleSign sampleDecodable "request.1"
           (SignRejected CancelledError) (SigningCancel "request.1") 0 signQueued).
  - by vm_compute.
  - constructor.
Defined.


Lemma authorizeUrl_pending_origin_witness :
  stripUrl "https://dapp.example/other" = Ok (Some "dapp.example")
  ∧ authRequest1 ∈ Obj.values (authRequests authQueued)
  ∧ authorizeUrl "https://dapp.example/other" "dapp" authQueued
    = (Throw (PendingAuthorization "https://dapp.example/other"), authQueued)
  ∧ classify (PendingAuthorization "https://dapp.example/other")
    = Some DuplicateRequest.
Proof.
  assert (authRequest1 ∈ Obj.values (authRequests authQueued)) as Hin.
  { vm_compute. constructor. }
  split; [by vm_compute|]. split; [done|].
  apply (authorizeUrl_pending_origin "https://dapp.example/other" "dapp"
           (Some "dapp.example") authRequest1 authQueued); [by vm_compute|done|done].
Defined.

Lemma authorize_resolution_records_entry_witness :
  reachable sampleExpiry sampleSign sampleDecodable authQueued
  ∧ Obj.get "request.1" (authRequests authQueued) = Some authRequest1
  ∧ (∀ accounts dids,
       (authorizeApprove accounts dids "request.1" authQueued).1 = Ok true
       ∧ recorded "request.1" authRequest1 accounts dids
           (authorizeApprove accounts dids "request.1" authQueued).2)
  ∧ (∀ e,
       (authReject "request.1" e authQueued).1 = Ok tt
       ∧ recorded "request.1" authRequest1 [] [] (authReject "request.1" e authQueued).2).
Proof.
  split; [apply started_reachable|]. split; [by vm_compute|].
  apply (authorize_resolution_records_entry sampleExpiry sampleSign sampleDecodable "request.1"
           authRequest1 authQueued); [apply started_reachable|by vm_compute].
Defined.

Lemma authorize_rejection_clears_default_selection_witness :
  reachable sampleExpiry sampleSign sampleDecodable authQueued
  ∧ Obj.get "request.1" (authRequests authQueued) = Some authRequest1
  ∧ defaultAuthAccountSelection authQueued = ["5Alice"]
  ∧ (authReject "request.1" RejectedError authQueued).1 = Ok tt
  ∧ defaultAuthAccountSelection (authReject "request.1" RejectedError authQueued).2 = []
  ∧ storedDefaultAuthAccounts (authReject "request.1" RejectedError authQueued).2
    = Some [].
Proof.
  split; [apply started_reachable|]. split; [by vm_compute|]. split; [by vm_compute|].
  apply (authorize_rejection_clears_default_selection sampleExpiry sampleSign
           sampleDecodable
           "request.1" authRequest1 RejectedError authQueued);
    [apply started_reachable|by vm_compute].
Defined.




Lemma signingApprovePassword_wrong_password_witness :
  Obj.get "request.1" (signRequests signQueued) = Some signRequest1
  ∧ pairs signQueued !! "5Alice" = Some alice
  ∧ (signingApprovePassword sampleExpiry sampleSign "request.1" "wrong" false 1000
       signQueued).1 = Throw UnableToDecode
  ∧ signRequests
      (signingApprovePassword sampleExpiry sampleSign "request.1" "wrong" false 1000
         signQueued).2 = signRequests signQueued
  ∧ settled
      (signingApprovePassword sampleExpiry sampleSign "request.1" "wrong" false 1000
         signQueued).2 = settled signQueued.
Proof.
  split; [by vm_compute|]. split; [by vm_compute|].
  apply (signingApprovePassword_wrong_password sampleExpiry sampleSign "request.1"
           "wrong" false 1000 signRequest1 alice signQueued); by vm_compute.
Defined.

Lemma didsSignApprove_did_not_found_witness :
  Obj.get "request.1" (didSignRequests didSignQueued) = Some didSignRequest1
  ∧ didsStore didSignQueued !! "did:qsb:7f3a" = None
  ∧ didsSignApprove sampleSign "request.1" "secret" didSignQueued
    = (Throw DidNotFoundError, didSignQueued)
  ∧ classify DidNotFoundError = Some DidNotFound
  ∧ Obj.get "request.1" (didSignRequests didSignQueued) = Some didSignRequest1.
Proof.
  split; [by vm_compute|]. split; [by vm_compute|].
  apply (didsSignApprove_did_not_found sampleSign "request.1" "secret"
           didSignRequest1 didSignQueued); by vm_compute.
Defined.
